(** * goseapi: a client for the Stack Exchange API

    A shallow embedding of [stackexchange.go] and the properties of its
    request builder and response decoder.

    Go strings are byte sequences: they are modelled by [string], whose
    characters ([ascii]) are the 256 byte values, and a [[]byte] by
    [list ascii].  Go's [int] carries no arithmetic in this package (it is
    only compared with zero, formatted and parsed), so it is modelled by
    [Z]. *)

From Stdlib Require Import ZArith Ascii String DecimalString DecimalPos DecimalZ.
From stdpp Require Import base tactics option list sorting gmap strings.

Local Open Scope Z_scope.
Local Open Scope nat_scope.

(** ** Byte strings *)

Module Bytes.

(** [[]byte(s)] *)
Definition of_string (s : string) : list ascii := list_ascii_of_string s.

(** [string(b)] *)
Definition to_string (b : list ascii) : string := string_of_list_ascii b.

(** [bytes.IndexByte(b, c)]: the index of the first [c] in [b]; Go's [-1]
    is [None]. *)
Fixpoint IndexByte (b : list ascii) (c : ascii) : option nat :=
  match b with
  | [] => None
  | x :: b' => if decide (x = c) then Some 0 else S <$> IndexByte b' c
  end.

End Bytes.

Definition lbrace : ascii := "{".
Definition rbrace : ascii := "}".

(** ** Placeholder substitution ([fillPlaceholders], lines 148-173) *)

(** The variables of the loop: the output [buf], the unread template [b]
    and the argument cursor [argIdx]. *)
Record fillState : Type := FillState {
  buf : list ascii;
  b : list ascii;
  argIdx : nat
}.

(** The [for] loop of lines 156-168.  Every iteration that does not [break]
    advances [argIdx], so [length args] iterations are always enough; [fuel]
    bounds the number of iterations. *)
Fixpoint fillLoop (fuel : nat) (args : list string) (st : fillState) : fillState :=
  match fuel with
  | O => st
  | S fuel' =>
    if bool_decide (argIdx st < length args) && bool_decide (0 < length (b st)) then
      match Bytes.IndexByte (b st) lbrace with
      | None => st
      | Some i =>
        let buf1 := buf st ++ take i (b st) in
        let b1 := drop i (b st) in
        match Bytes.IndexByte b1 rbrace with
        | None => FillState buf1 b1 (argIdx st)
        | Some j =>
          match args !! argIdx st with
          | Some a =>
            fillLoop fuel' args
              (FillState (buf1 ++ Bytes.of_string a) (drop (S j) b1) (S (argIdx st)))
          | None => FillState buf1 b1 (argIdx st)
          end
        end
      end
    else st
  end.

(** The state in which the loop is left. *)
Definition fillExit (s : string) (args : list string) : fillState :=
  fillLoop (length args) args (FillState [] (Bytes.of_string s) 0).

Definition fillPlaceholders (s : string) (args : list string) : string :=
  if bool_decide (String.length s = 0) || bool_decide (length args = 0) then s
  else
    let st := fillExit s args in
    let buf := if bool_decide (0 < length (b st)) then buf st ++ b st else buf st in
    Bytes.to_string buf.

(** The number of substitution arguments the call has used. *)
Definition argsUsed (s : string) (args : list string) : nat :=
  if bool_decide (String.length s = 0) || bool_decide (length args = 0) then 0
  else argIdx (fillExit s args).

(** ** Templates as placeholder spans

    Read from left to right, a template is a sequence of spans, each a
    stretch of literal text followed by one placeholder, and a tail in which
    no placeholder is complete.  A placeholder runs from a "{" to the first
    "}" after it, as the scan of [fillPlaceholders] has it. *)

(** Literal text [lit], then the placeholder [{hole}]. *)
Record span : Type := Span {
  lit : list ascii;
  hole : list ascii
}.

Definition renderSpan (sp : span) : list ascii :=
  lit sp ++ lbrace :: hole sp ++ [rbrace].

Definition render (sps : list span) (tail : list ascii) : list ascii :=
  concat (renderSpan <$> sps) ++ tail.

(** One pass over the template.  [inside] is [None] in literal text and
    holds the part of the placeholder read so far after a "{"; [txt] is the
    literal text read since the last complete placeholder. *)
Fixpoint scanSpans (inside : option (list ascii)) (txt : list ascii)
    (l : list ascii) : list span * list ascii :=
  match l with
  | [] =>
    ([], match inside with None => txt | Some h => txt ++ lbrace :: h end)
  | x :: l' =>
    match inside with
    | None =>
      if decide (x = lbrace) then scanSpans (Some []) txt l'
      else scanSpans None (txt ++ [x]) l'
    | Some h =>
      if decide (x = rbrace) then
        let '(sps, tail) := scanSpans None [] l' in (Span txt h :: sps, tail)
      else scanSpans (Some (h ++ [x])) txt l'
    end
  end.

(** The spans and the tail of a template. *)
Definition spans (s : string) : list span * list ascii :=
  scanSpans None [] (Bytes.of_string s).

(** Literal text holds no "{" and a placeholder no "}" before its end. *)
Definition span_ok (sp : span) : Prop :=
  (lbrace ∉ lit sp) ∧ (rbrace ∉ hole sp).

(** No placeholder is complete in the tail: no "{" of it has a "}" after
    it. *)
Definition tail_ok (tail : list ascii) : Prop :=
  ∃ pre post, tail = pre ++ post ∧ (lbrace ∉ pre) ∧ (rbrace ∉ post).

(** Positional substitution: the i-th span takes the i-th argument, as long
    as there are both; the spans left over are rendered as they were. *)
Definition substitute (sps : list span) (args : list string)
    (tail : list ascii) : list ascii :=
  concat (zip_with (λ sp a, lit sp ++ Bytes.of_string a) sps args)
  ++ render (drop (length args) sps) tail.

(** ** The [strconv] and [net/url] functions the package calls *)

Module strconv.

(** [strconv.Itoa(i)], and [strconv.FormatInt(i, 10)]: the decimal
    numeral of [i], most significant digit first, "-" before the digits
    of a negative number and "0" for zero. *)
Definition Itoa (i : Z) : string := NilZero.string_of_int (Z.to_int i).

(** [strconv.AppendInt(dst, i, 10)] *)
Definition AppendInt (dst : list ascii) (i : Z) : list ascii :=
  dst ++ Bytes.of_string (Itoa i).

(** Reading a decimal numeral back. *)
Definition Atoi (s : string) : option Z :=
  Z.of_int <$> NilZero.int_of_string s.

End strconv.

Module url.

(** [url.Values] is [map[string][]string]. *)
Abbreviation Values := (gmap string (list string)).

(** [v.Set(key, value)] replaces whatever [key] had by the one value. *)
Definition Set_ (v : Values) (key value : string) : Values :=
  <[key := [value]]> v.

Definition between (lo hi c : ascii) : bool :=
  (nat_of_ascii lo <=? nat_of_ascii c) && (nat_of_ascii c <=? nat_of_ascii hi).

(** [shouldEscape(c, encodeQueryComponent)]: letters, digits and the
    marks [-_.~] are kept, every other byte is escaped. *)
Definition shouldEscape (c : ascii) : bool :=
  if between "a" "z" c || between "A" "Z" c || between "0" "9" c then false
  else if bool_decide (c ∈ ["-"; "_"; "."; "~"]%char) then false
  else true.

(** ["0123456789ABCDEF"[n]] *)
Definition upperhex (n : nat) : ascii :=
  nth n (Bytes.of_string "0123456789ABCDEF") "0"%char.

Definition escapeByte (c : ascii) : list ascii :=
  if bool_decide (c = " "%char) then ["+"%char]
  else if shouldEscape c then
    ["%"%char; upperhex (nat_of_ascii c / 16); upperhex (nat_of_ascii c mod 16)]
  else [c].

(** [url.QueryEscape(s)] *)
Definition QueryEscape (s : string) : string :=
  Bytes.to_string (concat (escapeByte <$> Bytes.of_string s)).

(** [slices.Sort(keys)]: bytewise lexicographic order. *)
Definition sortKeys (keys : list string) : list string :=
  merge_sort String.le keys.

(** The body of [Values.Encode] once the keys have been collected: they
    are sorted, and every value of every key is written as [key=value],
    with "&" before all but the first. *)
Definition encodeKeys (keys : list string) (v : Values) : string :=
  Bytes.to_string
    (foldl (λ buf k,
       let vs := default [] (v !! k) in
       let keyEscaped := QueryEscape k in
       foldl (λ buf val,
         let buf := if bool_decide (0 < length buf) then buf ++ ["&"%char] else buf in
         buf ++ Bytes.of_string keyEscaped ++ "="%char :: Bytes.of_string (QueryEscape val))
         buf vs)
       [] (sortKeys keys)).

(** The order in which [for k := range v] visits the keys of a map: Go
    leaves it unspecified and varies it from one loop to the next.  An
    order is any function that lists the keys of every map, each once. *)
Record rangeOrder : Type := RangeOrder {
  keysOf : Values → list string;
  keysOf_perm : ∀ v, keysOf v ≡ₚ elements (dom v)
}.

(** [v.Encode()] *)
Definition Encode (ord : rangeOrder) (v : Values) : string :=
  if bool_decide (size v = 0) then "" else encodeKeys (keysOf ord v) v.

End url.

(** ** [JoinIDs] (lines 176-186) *)

(** [int64(id)]: every [int] is an [int64], with the same value. *)
Definition int64 (id : Z) : Z := id.

(** The [range] loop over [ids], from the buffer [buf]. *)
Fixpoint joinLoop (buf : list ascii) (ids : list Z) : list ascii :=
  match ids with
  | [] => buf
  | id :: ids' =>
    let buf := if bool_decide (0 < length buf) then buf ++ [";"%char] else buf in
    joinLoop (strconv.AppendInt buf (int64 id)) ids'
  end.

Definition JoinIDs (ids : list Z) : string :=
  Bytes.to_string (joinLoop [] ids).

(** ** Constants (lines 16-47) *)

Definition Version : string := "2.1".
Definition Root : string := "https://api.stackexchange.com/" +:+ Version.

Definition StackOverflow : string := "stackoverflow".

Definition SortActivity : string := "activity".
Definition SortCreationDate : string := "creation".
Definition SortHot : string := "hot".
Definition SortWeek : string := "week".
Definition SortMonth : string := "month".
Definition SortScore : string := "votes".

Definition PathAllAnswers : string := "/answers".
Definition PathAnswers : string := "/answers/{ids}".
Definition PathAnswerComments : string := "/answers/{ids}/comments".
Definition PathAllQuestions : string := "/questions".
Definition PathQuestions : string := "/questions/{ids}".
Definition PathQuestionAnswers : string := "/questions/{ids}/answers".
Definition PathQuestionComments : string := "/questions/{ids}/comments".

(** ** The structs *)

(** [Params] (lines 50-65) *)
Module Params.
Record t : Type := mk {
  Site : string;
  Sort : string;
  Order : string;
  Page : Z;
  PageSize : Z;
  Filter : string;
  Tagged : string;
  Args : list string
}.
End Params.

(** [Client] (lines 101-108).  [Client] is a [*http.Client], [None] when it
    is nil; the type of HTTP clients is left open. *)
Module Client.
Record t (HttpClient : Type) : Type := mk {
  Client : option HttpClient;
  Root : string;
  AccessToken : string;
  Key : string
}.
Arguments mk {HttpClient} _ _ _ _.
Arguments Client {HttpClient} _.
Arguments Root {HttpClient} _.
Arguments AccessToken {HttpClient} _.
Arguments Key {HttpClient} _.
End Client.

(** Modelled from the spec: the declarations of [Error] and [Wrapper] are
    not in [stackexchange.go].  Their fields are those of the response
    envelope of the specification (error descriptor, paging flags, quota
    fields, total and type), under the names and with the types that the
    composite literal of [parseResponse] (lines 209-223) gives them. *)
Module Error.
Record t : Type := mk {
  ID : Z;
  Name : string;
  Message : string
}.
End Error.

Module Wrapper.
Record t : Type := mk {
  Error : Error.t;
  Page : Z;
  PageSize : Z;
  HasMore : bool;
  Backoff : Z;
  QuotaMax : Z;
  QuotaRemaining : Z;
  Total : Z;
  Type_ : string
}.
End Wrapper.

(** The anonymous struct [result] of [parseResponse] (lines 189-206).
    [Items] is [items{v}]: it holds the destination [v] of the caller. *)
Module result.
Record t (Dest : Type) : Type := mk {
  Items : Dest;
  ErrorID : Z;
  ErrorName : string;
  ErrorMessage : string;
  Page : Z;
  PageSize : Z;
  HasMore : bool;
  Backoff : Z;
  QuotaMax : Z;
  QuotaRemaining : Z;
  Total : Z;
  Type_ : string
}.
Arguments mk {Dest} _ _ _ _ _ _ _ _ _ _ _ _.
Arguments Items {Dest} _.
Arguments ErrorID {Dest} _.
Arguments ErrorName {Dest} _.
Arguments ErrorMessage {Dest} _.
Arguments Page {Dest} _.
Arguments PageSize {Dest} _.
Arguments HasMore {Dest} _.
Arguments Backoff {Dest} _.
Arguments QuotaMax {Dest} _.
Arguments QuotaRemaining {Dest} _.
Arguments Total {Dest} _.
Arguments Type_ {Dest} _.
End result.

(** ** Errors *)

(** The kind of a JSON value, as [json.UnmarshalTypeError] names it. *)
Inductive kind : Type := KNull | KBool | KNumber | KString | KArray | KObject.

(** The values of type [error] that the package returns.  [Err] is the
    type of the errors that come from outside: from the transport, from
    reading the body, from decoding into the destination of the caller. *)
Inductive error (Err : Type) : Type :=
| TransportError (e : Err)
    (* [client.Get] failed *)
| ReadError (e : Err)
    (* [Decode] found no complete JSON value: syntax error, unexpected end
       of the input, or a failure of the reader *)
| UnmarshalTypeError (value : kind) (field : string)
    (* a JSON value of the wrong kind, or a number out of range, for a
       field of the struct; [field] is "" for the struct itself *)
| UnmarshalerError (e : Err).
    (* [items.UnmarshalJSON] returned an error *)
Arguments TransportError {Err} _.
Arguments ReadError {Err} _.
Arguments UnmarshalTypeError {Err} _ _.
Arguments UnmarshalerError {Err} _.

(** ** [encoding/json], as far as [parseResponse] uses it

    The decoder is not part of the package.  It is modelled in two parts.
    Reading one JSON value from the body (scanning, unquoting) is left
    open: it yields either an error or the value read, as a tree.  Storing
    that value in the struct [result] follows the rules documented for
    [json.Unmarshal]: the members of an object are taken in order; a key
    selects the field with that tag, or else a field whose tag matches it
    without regard to case; unknown keys are skipped; [null] leaves a field
    as it is; a value of the wrong kind leaves the field as it is, and the
    first such mismatch is the error returned in the end; the error of a
    field's own [UnmarshalJSON] ends the decoding at once. *)
Module json.

#[warnings="-register-all"]
Inductive value : Type :=
| Null
| Bool (b : bool)
| Num (i : Z)          (* a number written as an integer, of value [i] *)
| Frac (lit : string)  (* a number written with a fraction or an exponent *)
| Str (s : string)
| Array (l : list value)
| Object (ms : list (string * value)).

Definition kindOf (v : value) : kind :=
  match v with
  | Null => KNull
  | Bool _ => KBool
  | Num _ | Frac _ => KNumber
  | Str _ => KString
  | Array _ => KArray
  | Object _ => KObject
  end.

(** The fields of [result], in the order of their declaration. *)
Inductive field : Type :=
| FItems | FErrorID | FErrorName | FErrorMessage
| FPage | FPageSize | FHasMore
| FBackoff | FQuotaMax | FQuotaRemaining
| FTotal | FType.

#[global] Instance field_eq_dec : EqDecision field.
Proof. solve_decision. Defined.

Definition fields : list field :=
  [FItems; FErrorID; FErrorName; FErrorMessage; FPage; FPageSize; FHasMore;
   FBackoff; FQuotaMax; FQuotaRemaining; FTotal; FType].

(** The [json:"..."] tags. *)
Definition tag (f : field) : string :=
  match f with
  | FItems => "items"
  | FErrorID => "error_id"
  | FErrorName => "error_name"
  | FErrorMessage => "error_message"
  | FPage => "page"
  | FPageSize => "page_size"
  | FHasMore => "has_more"
  | FBackoff => "backoff"
  | FQuotaMax => "quota_max"
  | FQuotaRemaining => "quota_remaining"
  | FTotal => "total"
  | FType => "type"
  end.

(** Case folding of a key: ASCII letters go to upper case, and so do the
    two letters outside ASCII that fold to one, U+017F (long s, bytes
    197 191) and U+212A (Kelvin sign, bytes 226 132 170).  Any other byte
    stays, and cannot make a key equal to a folded tag. *)
Fixpoint foldBytes (l : list ascii) : list ascii :=
  match l with
  | [] => []
  | c :: l' =>
    if url.between "a" "z" c then
      ascii_of_nat (nat_of_ascii c - 32) :: foldBytes l'
    else
      match c, l' with
      | "197"%char, "191"%char :: l'' => "S"%char :: foldBytes l''
      | "226"%char, "132"%char :: "170"%char :: l'' => "K"%char :: foldBytes l''
      | _, _ => c :: foldBytes l'
      end
  end.

Definition foldName (s : string) : list ascii := foldBytes (Bytes.of_string s).

(** The field a key selects: an exact match of the tag first, a match
    under case folding otherwise. *)
Definition lookupField (key : string) : option field :=
  match list_find (λ f, tag f = key) fields with
  | Some (_, f) => Some f
  | None => snd <$> list_find (λ f, foldName (tag f) = foldName key) fields
  end.

(** Go's [int] has 64 bits here. *)
Definition int_ok (i : Z) : bool :=
  ((- 2 ^ 63 <=? i) && (i <? 2 ^ 63))%Z.

(** What storing a JSON value in a field of a basic type does. *)
Inductive store (A : Type) : Type :=
| Keep            (* [null]: no effect, no error *)
| Put (a : A)
| Mismatch.       (* no effect, an [UnmarshalTypeError] *)
Arguments Keep {A}.
Arguments Put {A} _.
Arguments Mismatch {A}.

Definition toInt (v : value) : store Z :=
  match v with
  | Null => Keep
  | Num i => if int_ok i then Put i else Mismatch
  | _ => Mismatch
  end.

Definition toString (v : value) : store string :=
  match v with
  | Null => Keep
  | Str s => Put s
  | _ => Mismatch
  end.

Definition toBool (v : value) : store bool :=
  match v with
  | Null => Keep
  | Bool b => Put b
  | _ => Mismatch
  end.

End json.

(** ** The response decoder *)

Section decoder.
Context {Body Dest Err : Type}.

(** What the decoder needs from outside: [readValue] reads one JSON value
    from the body, as [json.Decoder] does before it stores anything;
    [unmarshal data v] is [json.Unmarshal(data, v)] for the destination
    [v] of the caller, and gives the destination afterwards and the error
    returned. *)
Variable readValue : Body → Err + json.value.
Variable unmarshal : json.value → Dest → Dest * option Err.

(** [items.UnmarshalJSON] (lines 230-232) *)
Definition items_UnmarshalJSON (i : Dest) (data : json.value) : Dest * option Err :=
  unmarshal data i.

Abbreviation result := (result.t Dest).

(** Assignment to one field of [result]. *)
Definition setField (f : json.field) (v : json.value) (r : result) : json.store result :=
  let 'result.mk it eid ename emsg pg pgsz more boff qmax qrem tot typ := r in
  let putInt (k : Z → result) :=
    match json.toInt v with
    | json.Put i => json.Put (k i) | json.Keep => json.Keep | json.Mismatch => json.Mismatch
    end in
  let putString (k : string → result) :=
    match json.toString v with
    | json.Put s => json.Put (k s) | json.Keep => json.Keep | json.Mismatch => json.Mismatch
    end in
  let putBool (k : bool → result) :=
    match json.toBool v with
    | json.Put b => json.Put (k b) | json.Keep => json.Keep | json.Mismatch => json.Mismatch
    end in
  match f with
  | json.FItems => json.Keep
  | json.FErrorID => putInt (λ x, result.mk it x ename emsg pg pgsz more boff qmax qrem tot typ)
  | json.FErrorName => putString (λ x, result.mk it eid x emsg pg pgsz more boff qmax qrem tot typ)
  | json.FErrorMessage => putString (λ x, result.mk it eid ename x pg pgsz more boff qmax qrem tot typ)
  | json.FPage => putInt (λ x, result.mk it eid ename emsg x pgsz more boff qmax qrem tot typ)
  | json.FPageSize => putInt (λ x, result.mk it eid ename emsg pg x more boff qmax qrem tot typ)
  | json.FHasMore => putBool (λ x, result.mk it eid ename emsg pg pgsz x boff qmax qrem tot typ)
  | json.FBackoff => putInt (λ x, result.mk it eid ename emsg pg pgsz more x qmax qrem tot typ)
  | json.FQuotaMax => putInt (λ x, result.mk it eid ename emsg pg pgsz more boff x qrem tot typ)
  | json.FQuotaRemaining => putInt (λ x, result.mk it eid ename emsg pg pgsz more boff qmax x tot typ)
  | json.FTotal => putInt (λ x, result.mk it eid ename emsg pg pgsz more boff qmax qrem x typ)
  | json.FType => putString (λ x, result.mk it eid ename emsg pg pgsz more boff qmax qrem tot x)
  end.

Definition setItems (it : Dest) (r : result) : result :=
  let 'result.mk _ eid ename emsg pg pgsz more boff qmax qrem tot typ := r in
  result.mk it eid ename emsg pg pgsz more boff qmax qrem tot typ.

(** The members of an object, stored one after the other.  [saved] is the
    first mismatch met so far.  The value of "items" goes to
    [items.UnmarshalJSON]; an error from there is returned at once,
    and the members after it are not looked at. *)
Fixpoint decodeMembers (ms : list (string * json.value)) (r : result)
    (saved : option (error Err)) : result * option (error Err) :=
  match ms with
  | [] => (r, saved)
  | (key, v) :: ms' =>
    match json.lookupField key with
    | None => decodeMembers ms' r saved
    | Some json.FItems =>
      match items_UnmarshalJSON (result.Items r) v with
      | (it, Some e) => (setItems it r, Some (UnmarshalerError e))
      | (it, None) => decodeMembers ms' (setItems it r) saved
      end
    | Some f =>
      match setField f v r with
      | json.Put r' => decodeMembers ms' r' saved
      | json.Keep => decodeMembers ms' r saved
      | json.Mismatch =>
        decodeMembers ms' r
          (match saved with
           | Some e => Some e
           | None => Some (UnmarshalTypeError (json.kindOf v) (json.tag f))
           end)
      end
    end
  end.

(** A JSON value stored in [result]: an object member by member, [null]
    without effect, anything else is a mismatch. *)
Definition decodeValue (v : json.value) (r : result) : result * option (error Err) :=
  match v with
  | json.Object ms => decodeMembers ms r None
  | json.Null => (r, None)
  | _ => (r, Some (UnmarshalTypeError (json.kindOf v) ""))
  end.

(** [json.NewDecoder(r).Decode(&result)] *)
Definition Decode (r : Body) (res : result) : result * option (error Err) :=
  match readValue r with
  | inl e => (res, Some (ReadError e))
  | inr v => decodeValue v res
  end.

(** [parseResponse] (lines 188-224).  The first component is the
    [*Wrapper] returned, [None] for nil; the last one is the destination
    [v] after the call. *)
Definition parseResponse (r : Body) (v : Dest)
    : option Wrapper.t * option (error Err) * Dest :=
  let result := result.mk v 0 "" "" 0 0 false 0 0 0 0 "" in
  let '(result, err) := Decode r result in
  (Some
     {| Wrapper.Error :=
          {| Error.ID := result.ErrorID result;
             Error.Name := result.ErrorName result;
             Error.Message := result.ErrorMessage result |};
        Wrapper.Page := result.Page result;
        Wrapper.PageSize := result.PageSize result;
        Wrapper.HasMore := result.HasMore result;
        Wrapper.Backoff := result.Backoff result;
        Wrapper.QuotaMax := result.QuotaMax result;
        Wrapper.QuotaRemaining := result.QuotaRemaining result;
        Wrapper.Total := result.Total result;
        Wrapper.Type_ := result.Type_ result |},
   err,
   result.Items result).

End decoder.

(** ** Memory, effects and panics

    [*Client] and [*Params] are pointers.  A pointer is nil or the address
    of an object in the store; the store also holds the package variables
    [Verbose] and [DefaultClient], and the log of what the package has done
    to the outside: lines printed, requests sent, bodies closed. *)

Definition loc : Type := nat.

(** [None] is nil. *)
Definition ptr : Type := option loc.

Inductive event (HttpClient Body : Type) : Type :=
| Println (line : string)                    (* [fmt.Println(req)] *)
| Get (client : HttpClient) (req : string)   (* [client.Get(req)] *)
| Close (body : Body).                       (* [resp.Body.Close()] *)
Arguments Println {HttpClient Body} _.
Arguments Get {HttpClient Body} _ _.
Arguments Close {HttpClient Body} _.

Module Store.
Record t (HttpClient Body : Type) : Type := mk {
  clients : gmap loc (Client.t HttpClient);
  params : gmap loc Params.t;
  Verbose : bool;
  DefaultClient : ptr;
  log : list (event HttpClient Body)
}.
Arguments mk {HttpClient Body} _ _ _ _ _.
Arguments clients {HttpClient Body} _.
Arguments params {HttpClient Body} _.
Arguments Verbose {HttpClient Body} _.
Arguments DefaultClient {HttpClient Body} _.
Arguments log {HttpClient Body} _.
End Store.

(** A call returns a value or panics. *)
Inductive outcome (A : Type) : Type :=
| Ok (a : A)
| Panic.
Arguments Ok {A} _.
Arguments Panic {A}.

Section effects.
Context {HttpClient Body : Type}.

Abbreviation store := (Store.t HttpClient Body).

(** A computation runs from a store to an outcome and the store it leaves. *)
Definition M (A : Type) : Type := store → outcome A * store.

#[export] Instance M_ret : MRet M := λ A a st, (Ok a, st).

#[export] Instance M_bind : MBind M := λ A B k m st,
  match m st with
  | (Ok a, st') => k a st'
  | (Panic, st') => (Panic, st')
  end.

Definition panic {A} : M A := λ st, (Panic, st).

(** [*c] for [c *Client]: a nil pointer dereference panics.  An address
    without an object does not arise in Go; the model panics there too. *)
Definition loadClient (c : ptr) : M (Client.t HttpClient) :=
  λ st, match c ≫= (λ l, Store.clients st !! l) with
        | Some obj => (Ok obj, st)
        | None => (Panic, st)
        end.

(** [*p] for [p *Params] *)
Definition loadParams (p : ptr) : M Params.t :=
  λ st, match p ≫= (λ l, Store.params st !! l) with
        | Some obj => (Ok obj, st)
        | None => (Panic, st)
        end.

Definition getVerbose : M bool := λ st, (Ok (Store.Verbose st), st).

Definition getDefaultClient : M ptr := λ st, (Ok (Store.DefaultClient st), st).

(** One more entry in the log. *)
Definition emit (e : event HttpClient Body) : M unit :=
  λ st, (Ok tt,
         Store.mk (Store.clients st) (Store.params st) (Store.Verbose st)
           (Store.DefaultClient st) (Store.log st ++ [e])).

(** Go's [a && b]: [b] is only evaluated when [a] is true. *)
Definition andThen (a b : M bool) : M bool :=
  x ← a; if x : bool then b else mret false.

End effects.


(** ** The request builder *)

(** What lies outside the package: the HTTP clients and their answers, the
    JSON decoder, and the order in which Go ranges over a map. *)
Module Env.
Record t (HttpClient Body Dest Err : Type) : Type := mk {
  (* [http.DefaultClient] *)
  http_DefaultClient : HttpClient;
  (* [client.Get(req)]: an error, or a response with its body *)
  http_Get : HttpClient → string → Err + Body;
  (* reading one JSON value from a body *)
  readValue : Body → Err + json.value;
  (* [json.Unmarshal] into the destination of the caller *)
  unmarshal : json.value → Dest → Dest * option Err;
  (* the order of [range] over a [url.Values] *)
  order : url.rangeOrder
}.
Arguments mk {HttpClient Body Dest Err} _ _ _ _ _.
Arguments http_DefaultClient {HttpClient Body Dest Err} _.
Arguments http_Get {HttpClient Body Dest Err} _ _ _.
Arguments readValue {HttpClient Body Dest Err} _ _.
Arguments unmarshal {HttpClient Body Dest Err} _ _ _.
Arguments order {HttpClient Body Dest Err} _.
End Env.

Section request.
Context {HttpClient Body Dest Err : Type}.
Variable E : Env.t HttpClient Body Dest Err.

Abbreviation M' := (@M HttpClient Body).

(** [Params.values], of receiver [p *Params] (lines 67-90).  The receiver is first dereferenced
    for [p.Site]. *)
Definition values (p : ptr) : M' url.Values :=
  P ← loadParams p;
  let vals : url.Values := {[ "site" := [Params.Site P] ]} in
  let vals := if bool_decide (Params.Sort P ≠ "")
              then url.Set_ vals "sort" (Params.Sort P) else vals in
  let vals := if bool_decide (Params.Order P ≠ "")
              then url.Set_ vals "order" (Params.Order P) else vals in
  let vals := if bool_decide (Params.Page P ≠ 0%Z)
              then url.Set_ vals "page" (strconv.Itoa (Params.Page P)) else vals in
  let vals := if bool_decide (Params.PageSize P ≠ 0%Z)
              then url.Set_ vals "pagesize" (strconv.Itoa (Params.PageSize P)) else vals in
  let vals := if bool_decide (Params.Filter P ≠ "")
              then url.Set_ vals "filter" (Params.Filter P) else vals in
  let vals := if bool_decide (Params.Tagged P ≠ "")
              then url.Set_ vals "tagged" (Params.Tagged P) else vals in
  mret vals.

(** [c != nil && test], where [test] reads a field of [c]: the guards of
    [Do]. *)
Definition notNilAnd (c : ptr) (test : Client.t HttpClient → bool) : M' bool :=
  andThen (mret (bool_decide (c ≠ None))) (C ← loadClient c; mret (test C)).

(** [Client.Do], of receiver [c *Client] (lines 113-146).  The result is the [*Wrapper] ([None]
    for nil), the error ([None] for nil) and the destination [v] after the
    call. *)
Definition Client_Do (c : ptr) (path : string) (v : Dest) (params : ptr)
    : M' (option Wrapper.t * option (error Err) * Dest) :=
  (* Get arguments *)
  let client := Some (Env.http_DefaultClient E) in
  b ← notNilAnd c (λ C, bool_decide (Client.Client C ≠ None));
  client ← (if b : bool then C ← loadClient c; mret (Client.Client C) else mret client);
  let root := Root in
  b ← notNilAnd c (λ C, bool_decide (Client.Root C ≠ ""));
  root ← (if b : bool then C ← loadClient c; mret (Client.Root C) else mret root);
  (* Build URL parameters *)
  vals ← values params;
  b ← notNilAnd c (λ C, bool_decide (Client.AccessToken C ≠ ""));
  vals ← (if b : bool
          then C ← loadClient c; mret (url.Set_ vals "access_token" (Client.AccessToken C))
          else mret vals);
  b ← notNilAnd c (λ C, bool_decide (Client.Key C ≠ ""));
  vals ← (if b : bool
          then C ← loadClient c; mret (url.Set_ vals "key" (Client.Key C))
          else mret vals);
  P ← loadParams params;
  let req := root +:+ fillPlaceholders path (Params.Args P) +:+ "?"
             +:+ url.Encode (Env.order E) vals in
  verbose ← getVerbose;
  (if verbose : bool then emit (Println req) else mret tt);;
  (* Send request *)
  match client with
  | None => panic
  | Some client =>
    emit (Get client req);;
    match Env.http_Get E client req with
    | inl err => mret (None, Some (TransportError err), v)
    | inr body =>
      (* Parse response; the deferred [Close] runs on return *)
      let res := parseResponse (Env.readValue E) (Env.unmarshal E) body v in
      emit (Close body);;
      mret res
    end
  end.

(** The package-level [Do] (lines 96-98) *)
Definition Do (path : string) (v : Dest) (params : ptr)
    : M' (option Wrapper.t * option (error Err) * Dest) :=
  c ← getDefaultClient;
  Client_Do c path v params.

End request.

(** The value of [DefaultClient] when the package is loaded (line 93). *)
Definition DefaultClient_init : ptr := None.

(** ** Notions used to state the properties *)

(** The [key=value] pairs of a query, escaped, for the keys in the order
    given and the values of a key in their order. *)
Definition queryPairs (keys : list string) (v : url.Values) : list string :=
  k ← keys;
  (λ x, url.QueryEscape k +:+ "=" +:+ url.QueryEscape x) <$> default [] (v !! k).

(** Strings written one after the other, with "&" before each but the
    first thing in the buffer. *)
Definition joinTo (buf : list ascii) (ps : list string) : list ascii :=
  match ps with
  | [] => buf
  | _ => (if bool_decide (0 < length buf) then buf ++ ["&"%char] else buf)
         ++ Bytes.of_string (String.concat "&" ps)
  end.

(** The object a pointer designates in a store, if any. *)
Definition clientAt {HttpClient Body : Type} (st : Store.t HttpClient Body)
    (c : ptr) : option (Client.t HttpClient) :=
  c ≫= (λ l, Store.clients st !! l).

Definition paramsAt {HttpClient Body : Type} (st : Store.t HttpClient Body)
    (p : ptr) : option Params.t :=
  p ≫= (λ l, Store.params st !! l).

(** What a request takes from the identity: root, token and key, all
    empty for a nil client. *)
Definition credentials {HttpClient : Type} (C : option (Client.t HttpClient))
    : string * string * string :=
  (from_option Client.Root "" C,
   from_option Client.AccessToken "" C,
   from_option Client.Key "" C).

(** The requests sent, in a log. *)
Definition requests {HttpClient Body : Type}
    (log : list (event HttpClient Body)) : list (HttpClient * string) :=
  omap (λ e, match e with Get client req => Some (client, req) | _ => None end) log.

(** A computation leaves the objects and the package variables as they
    are, and only adds to the log. *)
Definition readOnly {HttpClient Body A : Type} (m : @M HttpClient Body A) : Prop :=
  ∀ st,
    Store.clients (m st).2 = Store.clients st
    ∧ Store.params (m st).2 = Store.params st
    ∧ Store.Verbose (m st).2 = Store.Verbose st
    ∧ Store.DefaultClient (m st).2 = Store.DefaultClient st
    ∧ Store.log st `prefix_of` Store.log (m st).2.

(** The value a field of [result] holds, as JSON; the destination behind
    [Items] has none. *)
Definition fieldValue {Dest : Type} (f : json.field) (r : result.t Dest)
    : option json.value :=
  match f with
  | json.FItems => None
  | json.FErrorID => Some (json.Num (result.ErrorID r))
  | json.FErrorName => Some (json.Str (result.ErrorName r))
  | json.FErrorMessage => Some (json.Str (result.ErrorMessage r))
  | json.FPage => Some (json.Num (result.Page r))
  | json.FPageSize => Some (json.Num (result.PageSize r))
  | json.FHasMore => Some (json.Bool (result.HasMore r))
  | json.FBackoff => Some (json.Num (result.Backoff r))
  | json.FQuotaMax => Some (json.Num (result.QuotaMax r))
  | json.FQuotaRemaining => Some (json.Num (result.QuotaRemaining r))
  | json.FTotal => Some (json.Num (result.Total r))
  | json.FType => Some (json.Str (result.Type_ r))
  end.

(** A JSON value has the type a field expects: an integer that fits [int],
    a string or a boolean according to the field, or [null]; for "items",
    anything the destination of the caller decodes without error. *)
Definition accepts {Dest Err : Type}
    (unmarshal : json.value → Dest → Dest * option Err)
    (f : json.field) (x : json.value) : Prop :=
  match f with
  | json.FItems => ∀ d, (unmarshal x d).2 = None
  | json.FErrorID | json.FPage | json.FPageSize | json.FBackoff
  | json.FQuotaMax | json.FQuotaRemaining | json.FTotal =>
    x = json.Null ∨ ∃ i, x = json.Num i ∧ json.int_ok i = true
  | json.FErrorName | json.FErrorMessage | json.FType =>
    x = json.Null ∨ ∃ s, x = json.Str s
  | json.FHasMore =>
    x = json.Null ∨ ∃ b, x = json.Bool b
  end.

(** Every member that names a field has a value of the type of the
    field. *)
Definition wellTyped {Dest Err : Type}
    (unmarshal : json.value → Dest → Dest * option Err)
    (ms : list (string * json.value)) : Prop :=
  Forall (λ m, ∀ f, json.lookupField m.1 = Some f → accepts unmarshal f m.2) ms.

Definition isNull (x : json.value) : bool :=
  match x with json.Null => true | _ => false end.

(** The value an object gives to a field: that of the last member that
    names the field with a value other than [null]. *)
Definition memberOf (f : json.field) (ms : list (string * json.value))
    : option json.value :=
  last (omap (λ m, if bool_decide (json.lookupField m.1 = Some f) && negb (isNull m.2)
                   then Some m.2 else None) ms).

(** ** A concrete world, for worked examples

    HTTP clients are known by a name.  A body is given by what reading it
    yields.  The destination is a [*interface{}]: it takes any JSON value,
    and decoding into it does not fail. *)
Module Demo.

Definition HttpClient : Type := string.
Definition Err : Type := string.
Definition Body : Type := Err + json.value.
Definition Dest : Type := json.value.

Definition forward : url.rangeOrder :=
  url.RangeOrder (λ v, elements (dom v)) (λ v, Permutation_refl _).

Definition backward : url.rangeOrder :=
  url.RangeOrder (λ v, reverse (elements (dom v))) (λ v, reverse_Permutation _).

Definition readValue (body : Body) : Err + json.value := body.

Definition unmarshal (data : json.value) (v : Dest) : Dest * option Err :=
  (data, None).

(** A world in which every request is answered by [answer]. *)
Definition env (ord : url.rangeOrder) (answer : Err + Body)
    : Env.t HttpClient Body Dest Err :=
  Env.mk "http.DefaultClient" (λ _ _, answer) readValue unmarshal ord.

(** The envelope of the specification that reports an error. *)
Definition badParameter : list (string * json.value) :=
  [("error_id", json.Num 400); ("error_name", json.Str "bad_parameter");
   ("error_message", json.Str "x")].

(** The same envelope with a page that is not a number: well-formed
    JSON, of the wrong type for [Page]. *)
Definition mistyped : list (string * json.value) :=
  badParameter ++ [("page", json.Str "one")].


(** A store with one parameter set, at address 0, and one client, at
    address 1. *)
Definition params0 : Params.t :=
  Params.mk StackOverflow "" "" 0 0 "" "" ["1;2;3"].

Definition client1 : Client.t HttpClient :=
  Client.mk (Some "mine") "" "token" "".

Definition st0 : Store.t HttpClient Body :=
  Store.mk {[ 1 := client1 ]} {[ 0 := params0 ]} false DefaultClient_init [].

End Demo.

Module DemoWorlds.

(** The transport is down. *)
Definition down : Env.t Demo.HttpClient Demo.Body Demo.Dest Demo.Err :=
  Demo.env Demo.forward (inl "connection refused").

(** The service answers with the error envelope, and [range] runs
    backwards. *)
Definition refusing : Env.t Demo.HttpClient Demo.Body Demo.Dest Demo.Err :=
  Demo.env Demo.backward (inr (inr (json.Object Demo.badParameter))).

(** Another store: the same parameter set at address 5, the same client at
    address 7, [Verbose] set, and a line in the log. *)
Definition st1 : Store.t Demo.HttpClient Demo.Body :=
  Store.mk {[ 7 := Demo.client1 ]} {[ 5 := Demo.params0 ]} true
    DefaultClient_init [Println "earlier"].

End DemoWorlds.

(** ** Further notions, for the properties beyond the request URL *)

(** The lines printed and the bodies closed, in a log. *)
Definition printed {HttpClient Body : Type}
    (log : list (event HttpClient Body)) : list string :=
  omap (λ e, match e with Println line => Some line | _ => None end) log.


(** The value a field of the envelope returned holds, as JSON, and the zero
    value of the field. *)
Definition wrapperValue (f : json.field) (w : Wrapper.t) : option json.value :=
  match f with
  | json.FItems => None
  | json.FErrorID => Some (json.Num (Error.ID (Wrapper.Error w)))
  | json.FErrorName => Some (json.Str (Error.Name (Wrapper.Error w)))
  | json.FErrorMessage => Some (json.Str (Error.Message (Wrapper.Error w)))
  | json.FPage => Some (json.Num (Wrapper.Page w))
  | json.FPageSize => Some (json.Num (Wrapper.PageSize w))
  | json.FHasMore => Some (json.Bool (Wrapper.HasMore w))
  | json.FBackoff => Some (json.Num (Wrapper.Backoff w))
  | json.FQuotaMax => Some (json.Num (Wrapper.QuotaMax w))
  | json.FQuotaRemaining => Some (json.Num (Wrapper.QuotaRemaining w))
  | json.FTotal => Some (json.Num (Wrapper.Total w))
  | json.FType => Some (json.Str (Wrapper.Type_ w))
  end.

Definition zeroValue (f : json.field) : option json.value :=
  match f with
  | json.FItems => None
  | json.FErrorName | json.FErrorMessage | json.FType => Some (json.Str "")
  | json.FHasMore => Some (json.Bool false)
  | _ => Some (json.Num 0)
  end.

(** The values of the members of an object that name "items", in order. *)
Definition itemsOf (ms : list (string * json.value)) : list json.value :=
  omap (λ m, if bool_decide (json.lookupField m.1 = Some json.FItems)
             then Some m.2 else None) ms.

(** The pieces of a byte string between the occurrences of [sep]; [cur] is
    the piece being read. *)
Fixpoint splitOn (sep : ascii) (cur : list ascii) (l : list ascii)
    : list (list ascii) :=
  match l with
  | [] => [cur]
  | c :: l' =>
    if decide (c = sep) then cur :: splitOn sep [] l'
    else splitOn sep (cur ++ [c]) l'
  end.

(** Reading a list of IDs back: the empty string is the empty list, and
    otherwise every piece between two ";" is a decimal numeral. *)
Definition SplitIDs (s : string) : option (list Z) :=
  if bool_decide (s = "") then Some []
  else mapM (λ piece, strconv.Atoi (Bytes.to_string piece))
         (splitOn ";" [] (Bytes.of_string s)).

(** The bytes [QueryEscape] lets through or produces: letters, digits, the
    marks [-_.~], and "+" and "%". *)
Definition queryByte (c : ascii) : bool :=
  url.between "a" "z" c || url.between "A" "Z" c || url.between "0" "9" c
  || bool_decide (c ∈ ["-"; "_"; "."; "~"; "+"; "%"]%char).

(** How often a byte occurs in a string. *)
Definition occurrences (c : ascii) (s : string) : nat :=
  length (filter (λ x, x = c) (Bytes.of_string s)).

(** A second destination for worked examples, a [*int]: it takes a JSON
    integer that fits, is left alone by [null], and rejects anything
    else. *)
Module DemoInt.

Definition Dest : Type := Z.

Definition unmarshal (data : json.value) (v : Dest) : Dest * option Demo.Err :=
  match data with
  | json.Null => (v, None)
  | json.Num i => if json.int_ok i then (i, None)
                  else (v, Some "json: cannot unmarshal number into Go value of type int")
  | _ => (v, Some "json: cannot unmarshal into Go value of type int")
  end.


End DemoInt.

(** * Properties *)

(** ** Byte strings *)

Section bytes_lemmas.
Implicit Types (l : list ascii) (c : ascii).

Lemma IndexByte_None l c : Bytes.IndexByte l c = None ↔ c ∉ l.
Proof.
  induction l as [|x l IH]; simpl.
  - split; [intros _; apply not_elem_of_nil | done].
  - case_decide as Hx; [subst|].
    + split; [done | intros Hn; exfalso; apply Hn; left].
    + rewrite fmap_None, IH, not_elem_of_cons.
      split; [intros ?; split; [congruence | done] | by intros [_ ?]].
Qed.

Lemma IndexByte_lt l c i : Bytes.IndexByte l c = Some i → i < length l.
Proof.
  revert i. induction l as [|x l IH]; intros i; simpl; [done|].
  case_decide; [intros [= <-]; lia|].
  intros (j & Hj & ->)%fmap_Some. apply IH in Hj. lia.
Qed.

Lemma IndexByte_app_l l l' c i :
  Bytes.IndexByte l c = Some i → Bytes.IndexByte (l ++ l') c = Some i.
Proof.
  revert i. induction l as [|x l IH]; intros i; simpl; [done|].
  case_decide; [done|].
  intros (j & Hj & ->)%fmap_Some. by rewrite (IH _ Hj).
Qed.

Lemma IndexByte_app_r l l' c :
  Bytes.IndexByte l c = None →
  Bytes.IndexByte (l ++ l') c = (λ n, length l + n) <$> Bytes.IndexByte l' c.
Proof.
  induction l as [|x l IH]; simpl.
  - intros _. by destruct (Bytes.IndexByte l' c).
  - case_decide; [done|]. intros Hl%fmap_None.
    rewrite (IH Hl). by destruct (Bytes.IndexByte l' c).
Qed.

Lemma IndexByte_first l l' c :
  c ∉ l → Bytes.IndexByte (l ++ c :: l') c = Some (length l).
Proof.
  intros Hl%IndexByte_None. rewrite (IndexByte_app_r _ _ _ Hl). simpl.
  rewrite decide_True by done. simpl. f_equal. lia.
Qed.

Lemma to_of_string (s : string) : Bytes.to_string (Bytes.of_string s) = s.
Proof. apply string_of_list_ascii_of_string. Qed.

Lemma of_to_string l : Bytes.of_string (Bytes.to_string l) = l.
Proof. apply list_ascii_of_string_of_list_ascii. Qed.

Lemma of_string_length (s : string) :
  length (Bytes.of_string s) = String.length s.
Proof. unfold Bytes.of_string. induction s; simpl; [done | by f_equal]. Qed.

Lemma of_string_app (s t : string) :
  Bytes.of_string (s +:+ t) = Bytes.of_string s ++ Bytes.of_string t.
Proof. unfold Bytes.of_string. induction s; simpl; [done | by f_equal]. Qed.

Lemma to_string_app l l' :
  Bytes.to_string (l ++ l') = Bytes.to_string l +:+ Bytes.to_string l'.
Proof.
  unfold Bytes.to_string. induction l as [|a l IH]; simpl; [done|].
  by rewrite IH.
Qed.

End bytes_lemmas.

(** ** The substitution loop *)

Section fill_lemmas.
Implicit Types (args : list string) (st : fillState) (sps : list span).

(** Any fuel that covers the arguments still unused gives the same exit
    state: the bound [length args] of [fillExit] never cuts the loop
    short. *)
Lemma fillLoop_fuel args n m st :
  length args - argIdx st ≤ n → length args - argIdx st ≤ m →
  fillLoop n args st = fillLoop m args st.
Proof.
  revert m st. induction n as [|n IH]; intros [|m] st Hn Hm; simpl; try done.
  - rewrite bool_decide_false by lia. done.
  - rewrite bool_decide_false by lia. done.
  - destruct (bool_decide (argIdx st < length args)) eqn:Hlt; [|done].
    apply bool_decide_eq_true in Hlt. simpl.
    destruct (bool_decide (0 < length (b st))); [|done].
    destruct (Bytes.IndexByte (b st) lbrace) as [i|]; [|done].
    destruct (Bytes.IndexByte (drop i (b st)) rbrace) as [j|]; [|done].
    destruct (args !! argIdx st) as [a|]; [|done].
    apply IH; simpl; lia.
Qed.

(** On an exhausted template the loop is not entered. *)
Lemma fillLoop_empty fuel args bf k :
  fillLoop fuel args (FillState bf [] k) = FillState bf [] k.
Proof.
  destruct fuel; simpl; [done|]. by rewrite andb_false_r.
Qed.

Lemma render_nil tail : render [] tail = tail.
Proof. done. Qed.

Lemma render_cons sp sps tail :
  render (sp :: sps) tail
  = lit sp ++ lbrace :: hole sp ++ rbrace :: render sps tail.
Proof.
  unfold render, renderSpan. simpl.
  by rewrite <- !app_assoc, <- app_comm_cons, <- !app_assoc.
Qed.

Lemma substitute_nil_args sps tail : substitute sps [] tail = render sps tail.
Proof. unfold substitute. by rewrite zip_with_nil_r. Qed.

Lemma substitute_nil tail args : substitute [] args tail = tail.
Proof. unfold substitute. by rewrite drop_nil. Qed.

Lemma substitute_cons sp sps a args tail :
  substitute (sp :: sps) (a :: args) tail
  = lit sp ++ Bytes.of_string a ++ substitute sps args tail.
Proof. unfold substitute. simpl. by rewrite <- !app_assoc. Qed.

(** In a tail, nothing that starts at a "{" holds a "}". *)
Lemma tail_ok_no_close tail i :
  tail_ok tail → Bytes.IndexByte tail lbrace = Some i →
  Bytes.IndexByte (drop i tail) rbrace = None.
Proof.
  intros (pre & post & -> & Hpre & Hpost) Hi.
  apply IndexByte_None in Hpre.
  rewrite (IndexByte_app_r _ _ _ Hpre) in Hi.
  apply fmap_Some in Hi as (n & _ & ->).
  apply IndexByte_None. rewrite drop_app_add'  by done.
  intros Hin. apply Hpost. by apply (subseteq_drop n post).
Qed.

(** The loop on a template given by its spans: the output is the
    positional substitution, and one argument is used per span replaced. *)
Lemma fillLoop_render sps tail args :
  Forall span_ok sps → tail_ok tail →
  ∀ fuel bf k, length args - k ≤ fuel →
    let st := fillLoop fuel args (FillState bf (render sps tail) k) in
    buf st ++ b st = bf ++ substitute sps (drop k args) tail
    ∧ argIdx st = k + min (length sps) (length args - k).
Proof.
  intros Hsps Htail. induction Hsps as [|sp sps [Hlit Hhole] _ IH];
    intros fuel bf k Hfuel.
  - (* no span left: the tail is copied *)
    rewrite render_nil, substitute_nil. simpl length.
    destruct fuel as [|fuel]; simpl; [split; [done | lia]|].
    destruct (bool_decide (k < length args) && bool_decide (0 < length tail));
      simpl; [|split; [done | lia]].
    destruct (Bytes.IndexByte tail lbrace) as [i|] eqn:Hi;
      simpl; [|split; [done | lia]].
    rewrite (tail_ok_no_close _ _ Htail Hi). simpl.
    rewrite <- app_assoc, take_drop. split; [done | lia].
  - rewrite render_cons. simpl length.
    destruct (decide (k < length args)) as [Hk|Hk].
    + (* an argument is left: the span is replaced *)
      destruct fuel as [|fuel]; [lia|]. simpl.
      rewrite bool_decide_true by done.
      rewrite bool_decide_true by (rewrite length_app; simpl; lia).
      simpl. rewrite (IndexByte_first _ _ _ Hlit).
      rewrite drop_app_length, take_app_length.
      assert (Bytes.IndexByte (lbrace :: hole sp ++ rbrace :: render sps tail)
                rbrace = Some (S (length (hole sp)))) as ->.
      { change (Bytes.IndexByte (lbrace :: ?l) rbrace)
          with (S <$> Bytes.IndexByte l rbrace).
        by rewrite (IndexByte_first _ _ _ Hhole). }
      destruct (lookup_lt_is_Some_2 args k Hk) as [a Ha]. rewrite Ha.
      change (drop (S (S (length (hole sp)))) (lbrace :: hole sp ++ rbrace :: render sps tail))
        with (drop (S (length (hole sp))) (hole sp ++ rbrace :: render sps tail)).
      replace (S (length (hole sp))) with (length (hole sp) + 1) by lia.
      rewrite drop_app_add. simpl drop. rewrite drop_0.
      destruct (IH fuel ((bf ++ lit sp) ++ Bytes.of_string a) (S k)) as [Hout Hidx];
        [lia|]. simpl in Hout, Hidx. rewrite Hout, Hidx.
      rewrite (drop_S _ _ _ Ha), substitute_cons, <- !app_assoc.
      split; [done|]. destruct (length args - k) as [|m] eqn:Hm; [lia|].
      replace (length args - S k) with m by lia. lia.
    + (* the arguments are used up: the rest is copied *)
      rewrite (drop_ge args k) by lia. rewrite substitute_nil_args, render_cons.
      replace (length args - k) with 0 by lia. rewrite Nat.min_0_r.
      destruct fuel as [|fuel]; simpl; [split; [done | lia]|].
      rewrite bool_decide_false by done. simpl. split; [done | lia].
Qed.

(** The same with the counts in sight: [n] spans take [n] arguments. *)
Lemma substitute_min sps args tail :
  let n := min (length sps) (length args) in
  substitute sps args tail
  = concat (zip_with (λ sp a, lit sp ++ Bytes.of_string a)
              (take n sps) (take n args))
    ++ render (drop n sps) tail.
Proof.
  revert args. induction sps as [|sp sps IH]; intros args.
  - by rewrite substitute_nil.
  - destruct args as [|a args]; [by rewrite substitute_nil_args|].
    rewrite substitute_cons, IH. simpl. by rewrite <- !app_assoc.
Qed.

(** The scan splits every template into well-formed spans and tail, and
    loses nothing. *)
Lemma scanSpans_spec l : ∀ inside txt,
  lbrace ∉ txt → (∀ h, inside = Some h → rbrace ∉ h) →
  Forall span_ok (scanSpans inside txt l).1
  ∧ tail_ok (scanSpans inside txt l).2
  ∧ render (scanSpans inside txt l).1 (scanSpans inside txt l).2
    = txt ++ from_option (λ h, lbrace :: h) [] inside ++ l.
Proof.
  induction l as [|x l IH]; intros inside txt Htxt Hin; simpl.
  - split; [constructor|]. rewrite render_nil, app_nil_r.
    destruct inside as [h|]; simpl.
    + split; [|done]. exists txt, (lbrace :: h). split_and!; [done..|].
      apply not_elem_of_cons. split; [done | by apply Hin].
    + split; [|by rewrite app_nil_r].
      exists txt, []. rewrite app_nil_r. split_and!; [done..|].
      apply not_elem_of_nil.
  - destruct inside as [h|]; simpl.
    + case_decide as Hx.
      * subst x. destruct (IH None []) as (Hs & Ht & Hr);
          [apply not_elem_of_nil | done |].
        destruct (scanSpans None [] l) as [sps tail]; simpl in *.
        split_and!; [|done|].
        -- constructor; [|done]. split; simpl; [done | by apply Hin].
        -- by rewrite render_cons, Hr.
      * destruct (IH (Some (h ++ [x])) txt) as (Hs & Ht & Hr); [done| |].
        { intros h' [= <-]. rewrite not_elem_of_app, not_elem_of_cons.
          split_and!; [by apply Hin | done | apply not_elem_of_nil]. }
        split_and!; [done..|]. rewrite Hr. simpl.
        by rewrite <- app_assoc.
    + case_decide as Hx.
      * subst x. destruct (IH (Some []) txt) as (Hs & Ht & Hr); [done| |done].
        intros h' [= <-]. apply not_elem_of_nil.
      * destruct (IH None (txt ++ [x])) as (Hs & Ht & Hr); [|done|].
        { rewrite not_elem_of_app, not_elem_of_cons.
          split_and!; [done | congruence | apply not_elem_of_nil]. }
        split_and!; [done..|]. rewrite Hr. simpl. by rewrite <- app_assoc.
Qed.

Lemma spans_spec (s : string) :
  Forall span_ok (spans s).1 ∧ tail_ok (spans s).2
  ∧ render (spans s).1 (spans s).2 = Bytes.of_string s.
Proof.
  destruct (scanSpans_spec (Bytes.of_string s) None []) as (Hs & Ht & Hr);
    [apply not_elem_of_nil | done |]. done.
Qed.

(** The output of the function, for a template given by its spans. *)
Lemma fillPlaceholders_render sps tail args :
  Forall span_ok sps → tail_ok tail →
  fillPlaceholders (Bytes.to_string (render sps tail)) args
  = Bytes.to_string (substitute sps args tail)
  ∧ argsUsed (Bytes.to_string (render sps tail)) args
    = min (length sps) (length args).
Proof.
  intros Hsps Htail. unfold fillPlaceholders, argsUsed, fillExit.
  rewrite <- of_string_length, of_to_string.
  destruct (fillLoop_render sps tail args Hsps Htail (length args) [] 0)
    as [Hout Hidx]; [lia|]. simpl in Hout, Hidx.
  rewrite drop_0 in Hout. rewrite Nat.sub_0_r in Hidx.
  destruct (decide (length (render sps tail) = 0)) as [Hs|Hs].
  { rewrite bool_decide_true by done. simpl.
    apply nil_length_inv in Hs.
    destruct sps as [|sp sps]; [|by rewrite render_cons in Hs; destruct (lit sp)].
    rewrite substitute_nil. simpl. done. }
  rewrite (bool_decide_false _ Hs). simpl.
  destruct args as [|a args].
  { simpl. rewrite substitute_nil_args. split; [done | lia]. }
  simpl bool_decide. cbv iota. split; [|done].
  f_equal. rewrite <- Hout. case_bool_decide as Hb; [done|].
  destruct (b _); [by rewrite app_nil_r | simpl in Hb; lia].
Qed.

(** A "{" with no "}" after it: the loop runs as it does on the template
    cut before that "{", and leaves the rest unread. *)
Lemma fillLoop_unmatched args post :
  rbrace ∉ post →
  ∀ fuel bf b0 k,
    let st1 := fillLoop fuel args (FillState bf (b0 ++ lbrace :: post) k) in
    let st0 := fillLoop fuel args (FillState bf b0 k) in
    buf st1 ++ b st1 = (buf st0 ++ b st0) ++ lbrace :: post
    ∧ argIdx st1 = argIdx st0.
Proof.
  intros Hpost. assert (Bytes.IndexByte (lbrace :: post) rbrace = None) as Hnone.
  { apply IndexByte_None, not_elem_of_cons. done. }
  induction fuel as [|fuel IH]; intros bf b0 k; simpl.
  { by rewrite app_assoc. }
  case_bool_decide as Hk; simpl; [|by rewrite app_assoc].
  rewrite bool_decide_true by (rewrite length_app; simpl; lia).
  destruct (Bytes.IndexByte b0 lbrace) as [i|] eqn:Hi.
  - (* a "{" inside [b0] *)
    pose proof (IndexByte_lt _ _ _ Hi) as Hlt.
    rewrite bool_decide_true by lia.
    rewrite (IndexByte_app_l _ _ _ _ Hi).
    rewrite take_app_le, drop_app_le by lia.
    destruct (Bytes.IndexByte (drop i b0) rbrace) as [j|] eqn:Hj.
    + pose proof (IndexByte_lt _ _ _ Hj) as Hjlt.
      rewrite (IndexByte_app_l _ _ _ _ Hj).
      destruct (args !! k) as [a|]; simpl.
      * rewrite drop_app_le by lia. apply IH.
      * by rewrite <- !app_assoc.
    + rewrite (IndexByte_app_r _ _ _ Hj), Hnone. simpl.
      by rewrite <- !app_assoc.
  - (* the first "{" is the unmatched one *)
    rewrite (IndexByte_app_r _ _ _ Hi). simpl.
    rewrite Nat.add_0_r, take_app_length, drop_app_length, Hnone. simpl.
    case_bool_decide; simpl; by rewrite <- ?app_assoc.
Qed.

End fill_lemmas.

(** C1: [fillPlaceholders] substitutes positionally, from left to right.
    Every template [s] splits into its [P] placeholder spans and a tail
    without a complete placeholder; with [A] arguments the first
    [min P A] spans have their placeholder replaced by the first [min P A]
    arguments, in order, and the literal text, the spans left over (braces
    included) and the tail are copied as they are.  So for [A >= P] every
    placeholder is replaced and the extra arguments are unused, and for
    [A < P] the last [P - A] spans are unchanged.  The two examples of the
    specification are instances. *)
Theorem fillPlaceholders_positional (s : string) (args : list string) :
  let sps := (spans s).1 in
  let tail := (spans s).2 in
  let n := min (length sps) (length args) in
  (Forall span_ok sps ∧ tail_ok tail ∧ Bytes.to_string (render sps tail) = s)
  ∧ fillPlaceholders s args
    = Bytes.to_string
        (concat (zip_with (λ sp a, lit sp ++ Bytes.of_string a)
                   (take n sps) (take n args))
         ++ render (drop n sps) tail)
  ∧ argsUsed s args = n
  ∧ fillPlaceholders "/questions/{ids}/answers" ["1;2;3"]
    = "/questions/1;2;3/answers"
  ∧ fillPlaceholders "/answers/{ids}/comments" [] = "/answers/{ids}/comments".
Proof.
  intros sps tail n. destruct (spans_spec s) as (Hsps & Htail & Hr).
  fold sps tail in Hsps, Htail, Hr.
  assert (Bytes.to_string (render sps tail) = s) as Hs
    by (by rewrite Hr, to_of_string).
  destruct (fillPlaceholders_render sps tail args Hsps Htail) as [Hout Hidx].
  rewrite Hs in Hout, Hidx.
  split_and!; [done..| | done | done | done].
  by rewrite Hout, substitute_min.
Qed.

(** C10: an unmatched "{" ends the substitution.  When no "}" follows the
    "{" at the end of [pre], the template is handled as [pre] alone is,
    the "{" and what follows it are copied as they are, and no argument
    more is consumed than [pre] alone consumes. *)
Theorem fillPlaceholders_unmatched (pre post : string) (args : list string) :
  rbrace ∉ Bytes.of_string post →
  args ≠ [] →
  fillPlaceholders (pre +:+ "{" +:+ post) args
  = fillPlaceholders pre args +:+ "{" +:+ post
  ∧ argsUsed (pre +:+ "{" +:+ post) args = argsUsed pre args.
Proof.
  intros Hpost Hargs.
  destruct (fillLoop_unmatched args _ Hpost (length args) [] (Bytes.of_string pre) 0)
    as [Hout Hidx]. simpl in Hout, Hidx.
  unfold fillPlaceholders, argsUsed, fillExit.
  rewrite <- !of_string_length, !of_string_app, !length_app.
  change (Bytes.of_string "{") with [lbrace]. simpl app.
  rewrite (bool_decide_false (length _ + _ = 0)) by (simpl; lia).
  rewrite (bool_decide_false (length args = 0)) by (by destruct args).
  rewrite orb_false_r. simpl orb.
  set (st1 := fillLoop _ _ (FillState [] (_ ++ _) 0)) in *.
  set (st0 := fillLoop _ _ (FillState [] (Bytes.of_string pre) 0)) in *.
  assert (∀ st, (if bool_decide (0 < length (b st)) then buf st ++ b st else buf st)
                = buf st ++ b st) as Hif.
  { intros st. case_bool_decide as Hb; [done|].
    destruct (b st); [by rewrite app_nil_r | simpl in Hb; lia]. }
  rewrite !Hif, Hout, Hidx, to_string_app.
  change (Bytes.to_string (lbrace :: ?l)) with ("{" +:+ Bytes.to_string l).
  rewrite to_of_string.
  case_bool_decide as Hpre; [|done].
  destruct pre; [clear Hpre | done].
  subst st0. change (Bytes.of_string "") with (@nil ascii).
  by rewrite fillLoop_empty.
Qed.

(** ** Decimal numerals and [JoinIDs] *)

Section join_lemmas.

(** [Itoa] writes base 10: reading the numeral back gives the number. *)
Lemma Atoi_Itoa (i : Z) : strconv.Atoi (strconv.Itoa i) = Some i.
Proof.
  unfold strconv.Atoi, strconv.Itoa.
  rewrite NilZero.isi.
  - simpl. by rewrite DecimalZ.of_to.
  - destruct i; simpl; [done | | done].
    intros [= H]. by apply DecimalPos.Unsigned.to_uint_nonnil in H.
  - destruct i; simpl; [done | done |].
    intros [= H]. by apply DecimalPos.Unsigned.to_uint_nonnil in H.
Qed.

Lemma Itoa_nonempty (i : Z) : 0 < length (Bytes.of_string (strconv.Itoa i)).
Proof.
  pose proof (Atoi_Itoa i) as H.
  destruct (strconv.Itoa i); [done | simpl; lia].
Qed.

(** The loop of [JoinIDs] from any buffer: a ";" goes before the first
    numeral exactly when the buffer has something in it. *)
Lemma joinLoop_spec (ids : list Z) : ∀ buf,
  joinLoop buf ids
  = match ids with
    | [] => buf
    | _ => (if bool_decide (0 < length buf) then buf ++ [";"%char] else buf)
           ++ Bytes.of_string (String.concat ";" (strconv.Itoa <$> ids))
    end.
Proof.
  induction ids as [|id ids IH]; intros buf; [done|].
  simpl joinLoop. rewrite IH. unfold strconv.AppendInt, int64.
  destruct ids as [|id' ids]; [done|].
  rewrite bool_decide_true
    by (rewrite length_app; pose proof (Itoa_nonempty id); lia).
  change (String.concat ";" (strconv.Itoa <$> id :: id' :: ids))
    with (strconv.Itoa id +:+ ";" +:+ String.concat ";" (strconv.Itoa <$> id' :: ids)).
  rewrite !of_string_app. change (Bytes.of_string ";") with [";"%char].
  by rewrite <- !app_assoc.
Qed.

End join_lemmas.

(** C6: [JoinIDs] writes the IDs in base 10, in their order, with one ";"
    between two neighbours: no ";" before the first or after the last.
    Each numeral reads back as its ID.  The three examples of the
    specification are instances. *)
Theorem JoinIDs_spec (ids : list Z) :
  JoinIDs ids = String.concat ";" (strconv.Itoa <$> ids)
  ∧ Forall (λ id, strconv.Atoi (strconv.Itoa id) = Some id) ids
  ∧ JoinIDs [1; 2; 3]%Z = "1;2;3"
  ∧ JoinIDs [] = ""
  ∧ JoinIDs [42]%Z = "42".
Proof.
  split_and!; [| |done..].
  - unfold JoinIDs. rewrite joinLoop_spec.
    destruct ids; [done|]. simpl app. apply to_of_string.
  - apply Forall_forall. intros id _. apply Atoi_Itoa.
Qed.

(** ** Parameter serialization *)

Section values_lemmas.
Context {HttpClient Body : Type}.
Implicit Types (st : Store.t HttpClient Body) (v : url.Values) (P : Params.t).

(** A guarded [Set]: the key gets the one value under the guard, and the
    other keys keep what they had. *)
Lemma lookup_guarded_Set (g : bool) v key value k :
  (if g then url.Set_ v key value else v) !! k
  = if g && bool_decide (key = k) then Some [value] else v !! k.
Proof.
  unfold url.Set_. destruct g; simpl; [|done].
  case_bool_decide as Hk; [subst; apply lookup_insert_eq|].
  by apply lookup_insert_ne.
Qed.

Lemma loadParams_Some st (l : loc) P :
  Store.params st !! l = Some P → loadParams (Some l) st = (Ok P, st).
Proof. intros H. unfold loadParams. simpl. by rewrite H. Qed.

Lemma loadParams_nil st : loadParams None st = (Panic, st).
Proof. done. Qed.

(** [values] knows seven keys. *)
Lemma values_keys st (l : loc) P (vals : url.Values) (k : string) :
  Store.params st !! l = Some P →
  values (Some l) st = (Ok vals, st) →
  k ∉ ["site"; "sort"; "order"; "page"; "pagesize"; "filter"; "tagged"] →
  vals !! k = None.
Proof.
  intros HP Hrun Hk. unfold values, mbind, M_bind in Hrun.
  rewrite (loadParams_Some _ _ _ HP) in Hrun. injection Hrun as <-.
  rewrite !not_elem_of_cons in Hk.
  destruct Hk as (? & ? & ? & ? & ? & ? & ? & _).
  rewrite !lookup_guarded_Set.
  rewrite !(bool_decide_false (_ = k)) by done.
  rewrite !andb_false_r. by apply lookup_singleton_ne.
Qed.

End values_lemmas.


(** ** Query encoding *)

Section encode_lemmas.
Implicit Types (v : url.Values) (keys : list string) (buf : list ascii).

Lemma concat_cons_cons (sep p q : string) (ps : list string) :
  String.concat sep (p :: q :: ps) = p +:+ sep +:+ String.concat sep (q :: ps).
Proof. done. Qed.

Lemma joinTo_cons buf (p : string) (ps : list string) :
  0 < String.length p →
  joinTo buf (p :: ps)
  = joinTo ((if bool_decide (0 < length buf) then buf ++ ["&"%char] else buf)
            ++ Bytes.of_string p) ps.
Proof.
  intros Hp. destruct ps as [|q ps]; [done|].
  unfold joinTo. rewrite concat_cons_cons, !of_string_app.
  rewrite (bool_decide_true (0 < length (_ ++ Bytes.of_string p)))
    by (rewrite length_app, of_string_length; lia).
  change (Bytes.of_string "&") with ["&"%char]. by rewrite <- !app_assoc.
Qed.

Lemma joinTo_app buf (ps qs : list string) :
  Forall (λ p, 0 < String.length p) ps →
  joinTo (joinTo buf ps) qs = joinTo buf (ps ++ qs).
Proof.
  intros Hps. revert buf. induction Hps as [|p ps Hp _ IH]; intros buf; [done|].
  rewrite <- app_comm_cons, !joinTo_cons by done. apply IH.
Qed.

Lemma string_app_length (s t : string) :
  String.length (s +:+ t) = String.length s + String.length t.
Proof. induction s; simpl; [done | by f_equal]. Qed.

(** What the loop over the values of one key adds to the buffer. *)
Lemma encode_values buf (k : string) (vs : list string) :
  foldl (λ buf val,
    let buf := if bool_decide (0 < length buf) then buf ++ ["&"%char] else buf in
    buf ++ Bytes.of_string (url.QueryEscape k)
        ++ "="%char :: Bytes.of_string (url.QueryEscape val)) buf vs
  = joinTo buf ((λ x, url.QueryEscape k +:+ "=" +:+ url.QueryEscape x) <$> vs).
Proof.
  revert buf. induction vs as [|x vs IH]; intros buf; [done|].
  rewrite fmap_cons, joinTo_cons
    by (rewrite !string_app_length; simpl; lia).
  simpl foldl. rewrite IH. by rewrite !of_string_app.
Qed.

Lemma queryPairs_nonempty keys v :
  Forall (λ p, 0 < String.length p) (queryPairs keys v).
Proof.
  unfold queryPairs. apply Forall_forall. intros p Hp.
  apply list_elem_of_bind in Hp as (k & Hp & _).
  apply list_elem_of_fmap in Hp as (x & -> & _).
  rewrite !string_app_length. simpl. lia.
Qed.

(** [encodeKeys] writes the pairs of the sorted keys, joined by "&". *)
Lemma encodeKeys_spec keys v :
  url.encodeKeys keys v = String.concat "&" (queryPairs (url.sortKeys keys) v).
Proof.
  unfold url.encodeKeys.
  assert (∀ ks buf,
    foldl (λ buf k,
       let vs := default [] (v !! k) in
       let keyEscaped := url.QueryEscape k in
       foldl (λ buf val,
         let buf := if bool_decide (0 < length buf) then buf ++ ["&"%char] else buf in
         buf ++ Bytes.of_string keyEscaped
             ++ "="%char :: Bytes.of_string (url.QueryEscape val)) buf vs)
      buf ks
    = joinTo buf (queryPairs ks v)) as Hfold.
  { induction ks as [|k ks IH]; intros buf; [done|].
    simpl foldl. rewrite encode_values, IH.
    change (queryPairs (k :: ks) v)
      with (((λ x, url.QueryEscape k +:+ "=" +:+ url.QueryEscape x)
               <$> default [] (v !! k)) ++ queryPairs ks v).
    apply joinTo_app. apply Forall_fmap, Forall_true. intros x. simpl.
    rewrite !string_app_length. simpl. lia. }
  rewrite Hfold. unfold joinTo.
  destruct (queryPairs (url.sortKeys keys) v); [done|].
  simpl app. apply to_of_string.
Qed.


Lemma sortKeys_sorted keys : StronglySorted String.le (url.sortKeys keys).
Proof. apply StronglySorted_merge_sort; apply _. Qed.

Lemma sortKeys_perm keys : url.sortKeys keys ≡ₚ keys.
Proof. apply merge_sort_Permutation. Qed.

(** Sorting forgets the order in which the keys were collected. *)
Lemma sortKeys_unique keys keys' :
  keys ≡ₚ keys' → url.sortKeys keys = url.sortKeys keys'.
Proof.
  intros Hp. apply (StronglySorted_unique String.le);
    [apply sortKeys_sorted.. |].
  by rewrite !sortKeys_perm.
Qed.

(** [Encode] does not depend on the order of [range]. *)
Lemma Encode_order (ord ord' : url.rangeOrder) v :
  url.Encode ord v = url.Encode ord' v.
Proof.
  unfold url.Encode. case_bool_decide; [done|].
  rewrite !encodeKeys_spec. f_equal. f_equal. apply sortKeys_unique.
  by rewrite !url.keysOf_perm.
Qed.

(** [Encode] writes the pairs of the keys of the map, sorted, joined by
    "&". *)
Lemma Encode_spec (ord : url.rangeOrder) v :
  url.Encode ord v
  = String.concat "&" (queryPairs (url.sortKeys (elements (dom v))) v).
Proof.
  unfold url.Encode. case_bool_decide as Hsz.
  - apply map_size_empty_inv in Hsz. subst v.
    by rewrite dom_empty_L, elements_empty.
  - rewrite encodeKeys_spec. f_equal. f_equal. apply sortKeys_unique.
    apply url.keysOf_perm.
Qed.

End encode_lemmas.

(** ** Running [Do] *)

Section run_lemmas.
Context {HttpClient Body Dest Err : Type}.
Variable E : Env.t HttpClient Body Dest Err.
Implicit Types (st : Store.t HttpClient Body) (c : ptr) (P : Params.t).

Lemma values_run st (l : loc) P :
  Store.params st !! l = Some P →
  ∃ vals0 : url.Values, values (Some l) st = (Ok vals0, st).
Proof.
  intros HP. eexists. unfold values, mbind, M_bind.
  by rewrite (loadParams_Some _ _ _ HP).
Qed.

Lemma bind_Ok {A B} (m : M A) (k : A → M B) st (a : A) st' :
  m st = (Ok a, st') → (m ≫= k) st = k a st'.
Proof. intros H. unfold mbind, M_bind. by rewrite H. Qed.

Lemma loadClient_Some st c (C : Client.t HttpClient) :
  clientAt st c = Some C → loadClient c st = (Ok C, st).
Proof. intros H. unfold loadClient. fold (clientAt st c). by rewrite H. Qed.

(** A guard [c != nil && test] does not panic, on nil or on an object. *)
Lemma notNilAnd_run st c (test : Client.t HttpClient → bool) :
  (c = None ∨ is_Some (clientAt st c)) →
  notNilAnd c test st = (Ok (from_option test false (clientAt st c)), st).
Proof.
  intros [-> | [C HC]]; [done|].
  destruct c as [l|]; [|done]. unfold notNilAnd, andThen.
  rewrite bool_decide_true by done.
  erewrite bind_Ok by done. simpl.
  erewrite bind_Ok by (by apply loadClient_Some).
  unfold clientAt in HC. simpl in HC. by rewrite HC.
Qed.

(** The field read under a guard that has held. *)
Lemma guarded_load {A} st c (g : bool) (get : Client.t HttpClient → A) (d : A) :
  (g = true → is_Some (clientAt st c)) →
  (if g then C ← loadClient c; mret (get C) else mret d) st
  = (Ok (if g then from_option get d (clientAt st c) else d), st).
Proof.
  destruct g; [|done]. intros [C HC]; [done|].
  erewrite bind_Ok by (by apply loadClient_Some). by rewrite HC.
Qed.

Lemma from_option_test_true (C : option (Client.t HttpClient)) test :
  from_option test false C = true → is_Some C.
Proof. by destruct C. Qed.

(** The whole of a call, for a valid [params] and a receiver that is nil or
    valid: the result, and the store left. *)
Lemma Client_Do_run st c path (v : Dest) (lp : loc) P :
  Store.params st !! lp = Some P →
  (c = None ∨ is_Some (clientAt st c)) →
  let C := clientAt st c in
  let client := default (Env.http_DefaultClient E) (C ≫= Client.Client) in
  let rootF := from_option Client.Root "" C in
  let root := if decide (rootF = "") then Root else rootF in
  let token := from_option Client.AccessToken "" C in
  let key := from_option Client.Key "" C in
  ∃ vals0 : url.Values,
    values (Some lp) st = (Ok vals0, st)
    ∧ let vals1 := if decide (token = "") then vals0
                   else url.Set_ vals0 "access_token" token in
      let vals := if decide (key = "") then vals1 else url.Set_ vals1 "key" key in
      let req := root +:+ fillPlaceholders path (Params.Args P) +:+ "?"
                 +:+ url.Encode (Env.order E) vals in
      let answer := Env.http_Get E client req in
      Client_Do E c path v (Some lp) st
      = (Ok match answer with
            | inl err => (None, Some (TransportError err), v)
            | inr body => parseResponse (Env.readValue E) (Env.unmarshal E) body v
            end,
         Store.mk (Store.clients st) (Store.params st) (Store.Verbose st)
           (Store.DefaultClient st)
           (Store.log st
            ++ (if Store.Verbose st then [Println req] else [])
            ++ [Get client req]
            ++ match answer with inl _ => [] | inr body => [Close body] end)).
Proof.
  intros HP Hc C client rootF root token key.
  destruct (values_run st lp P HP) as [vals0 Hvals]. exists vals0.
  split; [done|]. intros vals1 vals req answer.
  unfold Client_Do.
  erewrite bind_Ok by (by apply notNilAnd_run).
  erewrite bind_Ok by (apply guarded_load, from_option_test_true).
  erewrite bind_Ok by (by apply notNilAnd_run).
  erewrite bind_Ok by (apply guarded_load, from_option_test_true).
  erewrite bind_Ok by done.
  erewrite bind_Ok by (by apply notNilAnd_run).
  erewrite bind_Ok by (apply guarded_load, from_option_test_true).
  erewrite bind_Ok by (by apply notNilAnd_run).
  erewrite bind_Ok by (apply guarded_load, from_option_test_true).
  erewrite bind_Ok by (by apply loadParams_Some).
  erewrite bind_Ok by done.
  fold C.
  assert ((if from_option (λ C0, bool_decide (Client.Root C0 ≠ "")) false C
           then from_option Client.Root Root C else Root) = root) as ->.
  { subst root rootF. destruct C as [C0|]; simpl; [|done].
    case_bool_decide; case_decide; done. }
  assert ((if from_option (λ C0, bool_decide (Client.AccessToken C0 ≠ "")) false C
           then from_option
                  (λ C0, url.Set_ vals0 "access_token" (Client.AccessToken C0))
                  vals0 C
           else vals0) = vals1) as ->.
  { subst vals1 token. destruct C as [C0|]; simpl; [|done].
    case_bool_decide; case_decide; done. }
  assert ((if from_option (λ C0, bool_decide (Client.Key C0 ≠ "")) false C
           then from_option (λ C0, url.Set_ vals1 "key" (Client.Key C0)) vals1 C
           else vals1) = vals) as ->.
  { subst vals key. destruct C as [C0|]; simpl; [|done].
    case_bool_decide; case_decide; done. }
  assert ((if from_option (λ C0, bool_decide (Client.Client C0 ≠ None)) false C
           then from_option Client.Client (Some (Env.http_DefaultClient E)) C
           else Some (Env.http_DefaultClient E)) = Some client) as ->.
  { subst client. destruct C as [C0|]; simpl; [|done].
    by destruct (Client.Client C0). }
  fold req. fold answer.
  unfold mbind, M_bind, mret, M_ret, emit.
  destruct (Store.Verbose st) eqn:HV, answer as [err|body]; simpl;
    by rewrite ?HV, <- ?app_assoc.
Qed.

End run_lemmas.

(** ** Frame: what a call leaves untouched *)

Section frame_lemmas.
Context {HttpClient Body : Type}.
Local Abbreviation M := (@M HttpClient Body).

Lemma readOnly_ret {A} (a : A) : readOnly (mret a : M A).
Proof. intros st. by split_and!. Qed.

Lemma readOnly_panic {A} : readOnly (panic : M A).
Proof. intros st. by split_and!. Qed.

Lemma readOnly_bind {A B} (m : M A) (k : A → M B) :
  readOnly m → (∀ a, readOnly (k a)) → readOnly (m ≫= k).
Proof.
  intros Hm Hk st. unfold mbind, M_bind.
  specialize (Hm st). destruct (m st) as [[a|] st1]; simpl in *; [|done].
  specialize (Hk a st1). destruct Hm as (Hc1 & Hp1 & Hv1 & Hd1 & Hl1).
  destruct Hk as (Hc2 & Hp2 & Hv2 & Hd2 & Hl2).
  split_and!; [congruence..|]. by etrans.
Qed.

Lemma readOnly_loadClient c : readOnly (loadClient c : M _).
Proof.
  intros st. unfold loadClient.
  by destruct (c ≫= _); split_and!.
Qed.

Lemma readOnly_loadParams p : readOnly (loadParams p : M _).
Proof.
  intros st. unfold loadParams.
  by destruct (p ≫= _); split_and!.
Qed.

Lemma readOnly_getVerbose : readOnly (getVerbose : M _).
Proof. intros st. by split_and!. Qed.

Lemma readOnly_getDefaultClient : readOnly (getDefaultClient : M _).
Proof. intros st. by split_and!. Qed.

Lemma readOnly_emit e : readOnly (emit e : M _).
Proof. intros st. split_and!; [done..|]. by apply prefix_app_r. Qed.

Lemma readOnly_if {A} (g : bool) (m1 m2 : M A) :
  readOnly m1 → readOnly m2 → readOnly (if g then m1 else m2).
Proof. by destruct g. Qed.

Lemma readOnly_notNilAnd c test : readOnly (notNilAnd c test : M _).
Proof.
  apply readOnly_bind; [apply readOnly_ret|]. intros g.
  apply readOnly_if; [|apply readOnly_ret].
  apply readOnly_bind; [apply readOnly_loadClient|]. intros. apply readOnly_ret.
Qed.

Lemma readOnly_values p : readOnly (values p : M _).
Proof.
  apply readOnly_bind; [apply readOnly_loadParams|]. intros. apply readOnly_ret.
Qed.

End frame_lemmas.

Create HintDb frame.

#[local] Hint Resolve readOnly_ret readOnly_panic readOnly_loadClient
  readOnly_loadParams readOnly_getVerbose readOnly_getDefaultClient
  readOnly_emit readOnly_notNilAnd readOnly_values : frame.



(** ** The request URL *)

Section url_lemmas.
Context {HttpClient Body Dest Err : Type}.
Implicit Types (st : Store.t HttpClient Body) (c : ptr) (P : Params.t).

Lemma requests_app (l1 l2 : list (event HttpClient Body)) :
  requests (l1 ++ l2) = requests l1 ++ requests l2.
Proof. apply omap_app. Qed.

(** The one request of a call, read off the log. *)
Lemma requests_run st (verbose : bool) (client : HttpClient) (req : string)
    (answer : Err + Body) :
  requests (Store.log st
            ++ (if verbose then [Println req] else [])
            ++ [Get client req]
            ++ match answer with inl _ => [] | inr body => [Close body] end)
  = requests (Store.log st) ++ [(client, req)].
Proof. rewrite !requests_app. by destruct verbose, answer. Qed.


End url_lemmas.


(** C7: the request URL is a function of the path, the parameter set and
    the identity alone.  Two calls with the same path, the same parameter
    set and the same root, token and key request the same URL, byte for
    byte, whatever else differs between them: the store (other objects,
    addresses, [Verbose], the log so far), the destination, the transport
    and its answers, and the order in which [range] visits the keys of the
    query, which Go varies from run to run. *)
Theorem request_url_deterministic {HttpClient Body Dest Err : Type}
    (E1 E2 : Env.t HttpClient Body Dest Err) (st1 st2 : Store.t HttpClient Body)
    (c1 c2 : ptr) (path : string) (v1 v2 : Dest) (lp1 lp2 : loc) (P : Params.t) :
  Store.params st1 !! lp1 = Some P →
  Store.params st2 !! lp2 = Some P →
  (c1 = None ∨ is_Some (clientAt st1 c1)) →
  (c2 = None ∨ is_Some (clientAt st2 c2)) →
  credentials (clientAt st1 c1) = credentials (clientAt st2 c2) →
  ∃ (client1 client2 : HttpClient) (req : string),
    requests (Store.log (Client_Do E1 c1 path v1 (Some lp1) st1).2)
    = requests (Store.log st1) ++ [(client1, req)]
    ∧ requests (Store.log (Client_Do E2 c2 path v2 (Some lp2) st2).2)
      = requests (Store.log st2) ++ [(client2, req)].
Proof.
  intros HP1 HP2 Hc1 Hc2 [= Hroot Htok Hkey].
  destruct (Client_Do_run E1 st1 c1 path v1 lp1 P HP1 Hc1) as (vals1 & Hv1 & Hrun1).
  destruct (Client_Do_run E2 st2 c2 path v2 lp2 P HP2 Hc2) as (vals2 & Hv2 & Hrun2).
  assert (vals1 = vals2) as <-.
  { unfold values, mbind, M_bind in Hv1, Hv2.
    rewrite (loadParams_Some _ _ _ HP1) in Hv1.
    rewrite (loadParams_Some _ _ _ HP2) in Hv2.
    injection Hv1 as <-. by injection Hv2 as <-. }
  cbv zeta in Hrun1, Hrun2. rewrite Hrun1, Hrun2. simpl Store.log.
  rewrite <- Hroot, <- Htok, <- Hkey.
  rewrite (Encode_order (Env.order E2) (Env.order E1)).
  eexists _, _, _. split; apply requests_run.
Qed.

(** C8: [Do] on a nil client.  With a nil receiver, as [DefaultClient] is
    when the package is loaded, the call does not panic: the guards
    [c != nil && ...] keep every field access away from the nil pointer.
    The request goes through [http.DefaultClient] to the constant root, and
    the query has no "access_token" and no "key". *)
Theorem Do_nil_client {HttpClient Body Dest Err : Type}
    (E : Env.t HttpClient Body Dest Err) (st : Store.t HttpClient Body)
    (path : string) (v : Dest) (lp : loc) (P : Params.t) :
  Store.params st !! lp = Some P →
  ∃ (vals : url.Values) (res : option Wrapper.t * option (error Err) * Dest),
    values (Some lp) st = (Ok vals, st)
    ∧ vals !! "access_token" = None
    ∧ vals !! "key" = None
    ∧ (Client_Do E None path v (Some lp) st).1 = Ok res
    ∧ requests (Store.log (Client_Do E None path v (Some lp) st).2)
      = requests (Store.log st)
        ++ [(Env.http_DefaultClient E,
             Root +:+ fillPlaceholders path (Params.Args P) +:+ "?"
             +:+ url.Encode (Env.order E) vals)]
    ∧ (Store.DefaultClient st = DefaultClient_init →
       Do E path v (Some lp) st = Client_Do E None path v (Some lp) st).
Proof.
  intros HP.
  destruct (Client_Do_run E st None path v lp P HP) as (vals & Hvals & Hrun);
    [by left|].
  simpl in Hrun. exists vals. eexists. split_and!; [done | | | | |].
  - eapply values_keys; [done..|].
    rewrite !not_elem_of_cons. split_and!; [done..|apply not_elem_of_nil].
  - eapply values_keys; [done..|].
    rewrite !not_elem_of_cons. split_and!; [done..|apply not_elem_of_nil].
  - by rewrite Hrun.
  - rewrite Hrun. simpl Store.log. apply requests_run.
  - intros Hd. unfold Do, getDefaultClient, mbind, M_bind. by rewrite Hd.
Qed.

(** ** The response decoder *)

Section decoder_lemmas.
Context {Body Dest Err : Type}.
Variable readValue : Body → Err + json.value.
Variable unmarshal : json.value → Dest → Dest * option Err.
Implicit Types (r : result.t Dest) (f g : json.field) (x : json.value)
  (ms : list (string * json.value)) (saved : option (error Err)).

Lemma fieldValue_setItems f (it : Dest) r :
  fieldValue f (setItems it r) = fieldValue f r.
Proof. by destruct r, f. Qed.

(** A value of the type of the field is stored, or skipped when [null]. *)
Lemma setField_accepts f x r :
  accepts unmarshal f x → f ≠ json.FItems → setField f x r ≠ json.Mismatch.
Proof.
  intros Hacc Hf. destruct r, f; try done; simpl in Hacc;
    (destruct Hacc as [Hx | [y Hy]]; [by subst|]);
    lazymatch type of Hy with
    | _ ∧ _ => destruct Hy as [Hx Hi]; subst x; simpl; by rewrite Hi
    | _ => by subst x
    end.
Qed.

Lemma setField_same f x r :
  accepts unmarshal f x → f ≠ json.FItems → x ≠ json.Null →
  ∃ r', setField f x r = json.Put r' ∧ fieldValue f r' = Some x.
Proof.
  intros Hacc Hf Hx. destruct r, f; try done; simpl in Hacc;
    (destruct Hacc as [Hn | [y Hy]]; [done|]);
    lazymatch type of Hy with
    | _ ∧ _ => destruct Hy as [Hy Hi]; subst x; simpl; rewrite Hi; by eexists
    | _ => subst x; by eexists
    end.
Qed.

Lemma setField_null f r : setField f json.Null r = json.Keep.
Proof. by destruct r, f. Qed.

(** Storing in one field leaves the others. *)
Lemma setField_other f g x r r' :
  f ≠ g → setField g x r = json.Put r' → fieldValue f r' = fieldValue f r.
Proof.
  intros Hfg Hset. destruct r, g; simpl in Hset; try done;
    repeat case_match; simplify_eq; by destruct f.
Qed.

(** Members of the right types raise no error. *)
Lemma decodeMembers_typed ms :
  Forall (λ m, ∀ f, json.lookupField m.1 = Some f → accepts unmarshal f m.2) ms →
  ∀ r saved, (decodeMembers unmarshal ms r saved).2 = saved.
Proof.
  induction 1 as [|[k x] ms Hm _ IH]; intros r saved; [done|].
  simpl in *. destruct (json.lookupField k) as [f|] eqn:Hk; [|apply IH].
  specialize (Hm f eq_refl).
  destruct (decide (f = json.FItems)) as [->|Hf].
  - unfold items_UnmarshalJSON. simpl in Hm. specialize (Hm (result.Items r)).
    destruct (unmarshal x (result.Items r)) as [it [e|]]; [done | apply IH].
  - pose proof (setField_accepts f x r Hm Hf) as Hset.
    destruct f; try done; destruct (setField _ x r); try done; apply IH.
Qed.

End decoder_lemmas.

Section envelope_lemmas.
Context {Dest Err : Type}.
Variable unmarshal : json.value → Dest → Dest * option Err.
Implicit Types (r : result.t Dest) (f g : json.field) (x : json.value)
  (ms : list (string * json.value)) (saved : option (error Err)).

Lemma memberOf_cons f k x ms :
  memberOf f ((k, x) :: ms)
  = if bool_decide (json.lookupField k = Some f) && negb (isNull x)
    then Some (default x (memberOf f ms)) else memberOf f ms.
Proof.
  unfold memberOf. simpl.
  destruct (bool_decide _ && negb _); [|done].
  rewrite last_cons. by destruct (last _).
Qed.

(** After well-typed members, a field holds the value the object gives it,
    or else the value it had. *)
Lemma decodeMembers_field f ms :
  f ≠ json.FItems → wellTyped unmarshal ms →
  ∀ r saved,
    fieldValue f (decodeMembers unmarshal ms r saved).1
    = match memberOf f ms with Some x => Some x | None => fieldValue f r end.
Proof.
  intros Hf. induction 1 as [|[k x] ms Hty _ IH]; intros r saved; [done|].
  rewrite memberOf_cons. simpl in Hty. simpl decodeMembers.
  destruct (json.lookupField k) as [g|] eqn:Hk; [|by rewrite IH].
  specialize (Hty g eq_refl).
  destruct (decide (g = json.FItems)) as [->|Hg].
  { rewrite bool_decide_false by congruence.
    unfold items_UnmarshalJSON. simpl in Hty. specialize (Hty (result.Items r)).
    destruct (unmarshal x (result.Items r)) as [it [e|]]; [done|].
    rewrite IH. by rewrite fieldValue_setItems. }
  assert (fieldValue f
            (match setField g x r with
             | json.Put r' => decodeMembers unmarshal ms r' saved
             | json.Keep => decodeMembers unmarshal ms r saved
             | json.Mismatch =>
               decodeMembers unmarshal ms r
                 (match saved with
                  | Some e => Some e
                  | None => Some (UnmarshalTypeError (json.kindOf x) (json.tag g))
                  end)
             end).1
          = match (if bool_decide (Some g = Some f) && negb (isNull x)
                   then Some (default x (memberOf f ms))
                   else memberOf f ms)
            with
            | Some y => Some y
            | None => fieldValue f r
            end) as Hgoal.
  { case_bool_decide as Hgf; simpl.
    - injection Hgf as ->. destruct (isNull x) eqn:Hx; simpl.
      + destruct x; try done. by rewrite setField_null, IH.
      + destruct (setField_same unmarshal f x r Hty Hf) as (r' & Hset & Hval).
        { by destruct x. }
        rewrite Hset, IH, Hval. by destruct (memberOf f ms).
    - pose proof (setField_accepts unmarshal g x r Hty Hg) as Hacc.
      destruct (setField g x r) as [|r'|] eqn:Hset; [| |done]; rewrite IH; [done|].
      rewrite (setField_other f g x r r'); [done | congruence | done]. }
  destruct g; try done; exact Hgoal.
Qed.

End envelope_lemmas.


(** C3, as amended: an error of the service is not an error of the
    decoder.  For a well-formed JSON object in which every member that
    names a field of the envelope has a value of the type of the field (for
    "items": a value that the destination decodes), and which sets
    "error_id", "error_name" and "error_message", [parseResponse] returns a
    nil error and an envelope whose error descriptor has exactly these three
    values. *)
Theorem parseResponse_api_error {Body Dest Err : Type}
    (readValue : Body → Err + json.value)
    (unmarshal : json.value → Dest → Dest * option Err)
    (r : Body) (v : Dest) (ms : list (string * json.value))
    (id : Z) (name msg : string) :
  readValue r = inr (json.Object ms) →
  wellTyped unmarshal ms →
  memberOf json.FErrorID ms = Some (json.Num id) →
  memberOf json.FErrorName ms = Some (json.Str name) →
  memberOf json.FErrorMessage ms = Some (json.Str msg) →
  ∃ (w : Wrapper.t) (v' : Dest),
    parseResponse readValue unmarshal r v = (Some w, None, v')
    ∧ Wrapper.Error w = Error.mk id name msg.
Proof.
  intros Hr Hty Hid Hname Hmsg.
  unfold parseResponse, Decode. rewrite Hr. simpl decodeValue.
  set (r0 := result.mk v 0 "" "" 0 0 false 0 0 0 0 "").
  pose proof (decodeMembers_typed unmarshal ms Hty r0 None) as Herr.
  pose proof (decodeMembers_field unmarshal json.FErrorID ms
                ltac:(done) Hty r0 None) as H1.
  pose proof (decodeMembers_field unmarshal json.FErrorName ms
                ltac:(done) Hty r0 None) as H2.
  pose proof (decodeMembers_field unmarshal json.FErrorMessage ms
                ltac:(done) Hty r0 None) as H3.
  rewrite Hid in H1. rewrite Hname in H2. rewrite Hmsg in H3.
  destruct (decodeMembers unmarshal ms r0 None) as [res err].
  simpl in *. subst err. injection H1 as ->. injection H2 as ->.
  injection H3 as ->. by eexists _, _.
Qed.

(** C3, as stated, fails: well-formed JSON is not enough for a nil error.
    The envelope of the specification with one more member, "page":"one",
    is well-formed and has its three error fields set; the decoder fills the
    error descriptor and returns an [UnmarshalTypeError] for "page". *)
Lemma parseResponse_mistyped_counterexample :
  let body : Demo.Body := inr (json.Object Demo.mistyped) in
  let res := parseResponse Demo.readValue Demo.unmarshal body json.Null in
  Demo.readValue body = inr (json.Object Demo.mistyped)
  ∧ memberOf json.FErrorID Demo.mistyped = Some (json.Num 400)
  ∧ memberOf json.FErrorName Demo.mistyped = Some (json.Str "bad_parameter")
  ∧ memberOf json.FErrorMessage Demo.mistyped = Some (json.Str "x")
  ∧ Wrapper.Error <$> res.1.1 = Some (Error.mk 400 "bad_parameter" "x")
  ∧ res.1.2 = Some (UnmarshalTypeError KString "page")
  ∧ res.1.2 ≠ None.
Proof. by split_and!. Qed.

(** ** Worked examples *)

Example Do_question_answers :
  Client_Do DemoWorlds.down (Some 1) PathQuestionAnswers json.Null (Some 0) Demo.st0
  = (Ok (None, Some (TransportError "connection refused"), json.Null),
     Store.mk (Store.clients Demo.st0) (Store.params Demo.st0) false None
       [Get "mine"
          "https://api.stackexchange.com/2.1/questions/1;2;3/answers?access_token=token&site=stackoverflow"]).
Proof. vm_compute. reflexivity. Qed.

Example Do_nil_params_panics :
  (Client_Do DemoWorlds.down None PathAllAnswers json.Null None Demo.st0).1 = Panic.
Proof. reflexivity. Qed.

Example parseResponse_folds_keys :
  (parseResponse Demo.readValue Demo.unmarshal
     (inr (json.Object [("ERROR_ID", json.Num 7); ("Has_More", json.Bool true)]))
     json.Null).1
  = (Some (Wrapper.mk (Error.mk 7 "" "") 0 0 true 0 0 0 0 ""), None).
Proof. reflexivity. Qed.

Example parseResponse_one_item :
  parseResponse Demo.readValue Demo.unmarshal
    (inr (json.Object
            [("items", json.Array [json.Object [("id", json.Num 1)]]);
             ("page", json.Num 1); ("has_more", json.Bool false)]))
    json.Null
  = (Some (Wrapper.mk (Error.mk 0 "" "") 1 0 false 0 0 0 0 ""), None,
     json.Array [json.Object [("id", json.Num 1)]]).
Proof. reflexivity. Qed.

Example Encode_escapes_and_sorts :
  url.Encode Demo.backward
    (url.Set_ (url.Set_ {[ "site" := ["stack overflow"] ]} "tagged" "c++;go") "page" "2")
  = "page=2&site=stack+overflow&tagged=c%2B%2B%3Bgo".
Proof. vm_compute. reflexivity. Qed.

Lemma fillPlaceholders_unmatched_witness :
  (rbrace ∉ Bytes.of_string "y")
  ∧ ["1"; "2"] ≠ []
  ∧ fillPlaceholders ("/a/{x}/b/" +:+ "{" +:+ "y") ["1"; "2"]
    = fillPlaceholders "/a/{x}/b/" ["1"; "2"] +:+ "{" +:+ "y"
  ∧ argsUsed ("/a/{x}/b/" +:+ "{" +:+ "y") ["1"; "2"]
    = argsUsed "/a/{x}/b/" ["1"; "2"].
Proof.
  assert (rbrace ∉ Bytes.of_string "y") as H1.
  { apply not_elem_of_cons. split; [done | apply not_elem_of_nil]. }
  assert (["1"; "2"] ≠ @nil string) as H2 by done.
  split; [exact H1|]. split; [exact H2|].
  exact (fillPlaceholders_unmatched "/a/{x}/b/" "y" ["1"; "2"] H1 H2).
Defined.



Lemma request_url_deterministic_witness :
  Store.params Demo.st0 !! 0 = Some Demo.params0
  ∧ Store.params DemoWorlds.st1 !! 5 = Some Demo.params0
  ∧ (Some 1 = None ∨ is_Some (clientAt Demo.st0 (Some 1)))
  ∧ (Some 7 = None ∨ is_Some (clientAt DemoWorlds.st1 (Some 7)))
  ∧ credentials (clientAt Demo.st0 (Some 1))
    = credentials (clientAt DemoWorlds.st1 (Some 7))
  ∧ ∃ (client1 client2 : Demo.HttpClient) (req : string),
      requests (Store.log (Client_Do DemoWorlds.down (Some 1) PathQuestionAnswers
                             json.Null (Some 0) Demo.st0).2)
      = requests (Store.log Demo.st0) ++ [(client1, req)]
      ∧ requests (Store.log (Client_Do DemoWorlds.refusing (Some 7) PathQuestionAnswers
                               (json.Num 1) (Some 5) DemoWorlds.st1).2)
        = requests (Store.log DemoWorlds.st1) ++ [(client2, req)].
Proof.
  assert (Store.params Demo.st0 !! 0 = Some Demo.params0) as H1 by reflexivity.
  assert (Store.params DemoWorlds.st1 !! 5 = Some Demo.params0) as H2 by reflexivity.
  assert (Some 1 = None ∨ is_Some (clientAt Demo.st0 (Some 1))) as H3
    by (right; eexists; reflexivity).
  assert (Some 7 = None ∨ is_Some (clientAt DemoWorlds.st1 (Some 7))) as H4
    by (right; eexists; reflexivity).
  assert (credentials (clientAt Demo.st0 (Some 1))
          = credentials (clientAt DemoWorlds.st1 (Some 7))) as H5 by reflexivity.
  split; [exact H1|]. split; [exact H2|]. split; [exact H3|].
  split; [exact H4|]. split; [exact H5|].
  exact (request_url_deterministic DemoWorlds.down DemoWorlds.refusing
           Demo.st0 DemoWorlds.st1 (Some 1) (Some 7) PathQuestionAnswers
           json.Null (json.Num 1) 0 5 Demo.params0 H1 H2 H3 H4 H5).
Defined.

Lemma Do_nil_client_witness :
  Store.params Demo.st0 !! 0 = Some Demo.params0
  ∧ ∃ (vals : url.Values) (res : option Wrapper.t * option (error Demo.Err) * Demo.Dest),
      vals !! "access_token" = None
      ∧ vals !! "key" = None
      ∧ (Client_Do DemoWorlds.refusing None PathAllAnswers json.Null (Some 0) Demo.st0).1
        = Ok res
      ∧ requests (Store.log (Client_Do DemoWorlds.refusing None PathAllAnswers
                               json.Null (Some 0) Demo.st0).2)
        = requests (Store.log Demo.st0)
          ++ [(Env.http_DefaultClient DemoWorlds.refusing,
               Root +:+ fillPlaceholders PathAllAnswers (Params.Args Demo.params0)
               +:+ "?" +:+ url.Encode (Env.order DemoWorlds.refusing) vals)]
      ∧ Do DemoWorlds.refusing PathAllAnswers json.Null (Some 0) Demo.st0
        = Client_Do DemoWorlds.refusing None PathAllAnswers json.Null (Some 0) Demo.st0.
Proof.
  assert (Store.params Demo.st0 !! 0 = Some Demo.params0) as H by reflexivity.
  split; [exact H|].
  destruct (Do_nil_client DemoWorlds.refusing Demo.st0 PathAllAnswers json.Null
              0 Demo.params0 H)
    as (vals & res & _ & Htok & Hkey & Hres & Hreq & Hdef).
  exists vals, res.
  split; [exact Htok|]. split; [exact Hkey|]. split; [exact Hres|].
  split; [exact Hreq|]. apply Hdef. reflexivity.
Defined.


Lemma parseResponse_api_error_witness :
  Demo.readValue (inr (json.Object Demo.badParameter))
  = inr (json.Object Demo.badParameter)
  ∧ wellTyped Demo.unmarshal Demo.badParameter
  ∧ memberOf json.FErrorID Demo.badParameter = Some (json.Num 400)
  ∧ memberOf json.FErrorName Demo.badParameter = Some (json.Str "bad_parameter")
  ∧ memberOf json.FErrorMessage Demo.badParameter = Some (json.Str "x")
  ∧ ∃ (w : Wrapper.t) (v' : Demo.Dest),
      parseResponse Demo.readValue Demo.unmarshal
        (inr (json.Object Demo.badParameter)) json.Null
      = (Some w, None, v')
      ∧ Wrapper.Error w = Error.mk 400 "bad_parameter" "x".
Proof.
  assert (Demo.readValue (inr (json.Object Demo.badParameter))
          = inr (json.Object Demo.badParameter)) as H1 by reflexivity.
  assert (wellTyped Demo.unmarshal Demo.badParameter) as H2.
  { repeat constructor; simpl; intros f [= <-]; simpl; right; eexists;
      (reflexivity || (split; reflexivity)). }
  assert (memberOf json.FErrorID Demo.badParameter = Some (json.Num 400)) as H3
    by reflexivity.
  assert (memberOf json.FErrorName Demo.badParameter
          = Some (json.Str "bad_parameter")) as H4 by reflexivity.
  assert (memberOf json.FErrorMessage Demo.badParameter = Some (json.Str "x")) as H5
    by reflexivity.
  split; [exact H1|]. split; [exact H2|]. split; [exact H3|].
  split; [exact H4|]. split; [exact H5|].
  exact (parseResponse_api_error Demo.readValue Demo.unmarshal
           (inr (json.Object Demo.badParameter)) json.Null Demo.badParameter
           400 "bad_parameter" "x" H1 H2 H3 H4 H5).
Defined.

(** * Further properties *)

(** ** Calls of [Do]: panics, transport, echo, release of the body *)

Section call_lemmas.
Context {HttpClient Body Dest Err : Type}.
Variable E : Env.t HttpClient Body Dest Err.
Implicit Types (st : Store.t HttpClient Body) (c : ptr) (P : Params.t).

Lemma bind_Panic {A B} (m : M A) (k : A → M B) st st' :
  m st = (Panic, st') → (m ≫= k) st = (Panic, st').
Proof. intros H. unfold mbind, M_bind. by rewrite H. Qed.

Lemma printed_app (l1 l2 : list (event HttpClient Body)) :
  printed (l1 ++ l2) = printed l1 ++ printed l2.
Proof. apply omap_app. Qed.


(** A receiver that points to no object stops the call at the first guard. *)
Lemma Client_Do_dangling st (l : loc) path (v : Dest) (params : ptr) :
  Store.clients st !! l = None →
  Client_Do E (Some l) path v params st = (Panic, st).
Proof.
  intros Hl. unfold Client_Do. apply bind_Panic.
  unfold notNilAnd, andThen. rewrite bool_decide_true by done.
  erewrite bind_Ok by done. simpl. apply bind_Panic.
  unfold loadClient. simpl. by rewrite Hl.
Qed.

End call_lemmas.

(** X1: [params] must not be nil.  With a nil [params], [Client.Do] panics
    on the dereference in [values], for every receiver, and so does the
    package-level [Do]; the panic comes before anything is printed or sent:
    the store, log included, is as it was. *)
Theorem Do_nil_params_panics_early {HttpClient Body Dest Err : Type}
    (E : Env.t HttpClient Body Dest Err) (st : Store.t HttpClient Body)
    (c : ptr) (path : string) (v : Dest) :
  Client_Do E c path v None st = (Panic, st)
  ∧ Do E path v None st = (Panic, st).
Proof.
  assert (∀ c', Client_Do E c' path v None st = (Panic, st)) as H.
  { intros c'. destruct (clientAt st c') as [C|] eqn:HC.
    - assert (c' = None ∨ is_Some (clientAt st c')) as Hc by (right; by eexists).
      unfold Client_Do.
      erewrite bind_Ok by (by apply notNilAnd_run).
      erewrite bind_Ok by (apply guarded_load, from_option_test_true).
      erewrite bind_Ok by (by apply notNilAnd_run).
      erewrite bind_Ok by (apply guarded_load, from_option_test_true).
      by apply bind_Panic.
    - destruct c' as [l|]; [by apply Client_Do_dangling|].
      unfold Client_Do.
      erewrite bind_Ok by (apply notNilAnd_run; by left).
      erewrite bind_Ok by done.
      erewrite bind_Ok by (apply notNilAnd_run; by left).
      erewrite bind_Ok by done.
      by apply bind_Panic. }
  split; [apply H|].
  unfold Do. erewrite bind_Ok by done. apply H.
Qed.



(** X4: the echo of [Verbose].  The call prints the URL it requests, and
    nothing else, when [Verbose] is set, and prints nothing when it is
    not. *)
Theorem Do_verbose_echo {HttpClient Body Dest Err : Type}
    (E : Env.t HttpClient Body Dest Err) (st : Store.t HttpClient Body)
    (c : ptr) (path : string) (v : Dest) (lp : loc) (P : Params.t) :
  Store.params st !! lp = Some P →
  (c = None ∨ is_Some (clientAt st c)) →
  let run := Client_Do E c path v (Some lp) st in
  ∃ (client : HttpClient) (req : string),
    requests (Store.log run.2) = requests (Store.log st) ++ [(client, req)]
    ∧ printed (Store.log run.2)
      = printed (Store.log st) ++ (if Store.Verbose st then [req] else []).
Proof.
  intros HP Hc run.
  destruct (Client_Do_run E st c path v lp P HP Hc) as (vals0 & _ & Hrun).
  cbv zeta in Hrun. subst run. rewrite Hrun. cbn [fst snd Store.log].
  eexists _, _. split; [apply requests_run|].
  rewrite !printed_app.
  destruct (Store.Verbose st), (Env.http_Get E _ _); simpl;
    by rewrite ?app_nil_r.
Qed.

(** X5: the choice of the transport.  The request goes through the
    [Client] of the receiver when the receiver is not nil and has one, and
    through [http.DefaultClient] otherwise. *)
Theorem Do_transport_choice {HttpClient Body Dest Err : Type}
    (E : Env.t HttpClient Body Dest Err) (st : Store.t HttpClient Body)
    (c : ptr) (path : string) (v : Dest) (lp : loc) (P : Params.t) :
  Store.params st !! lp = Some P →
  (c = None ∨ is_Some (clientAt st c)) →
  let run := Client_Do E c path v (Some lp) st in
  (requests (Store.log run.2)).*1
  = (requests (Store.log st)).*1
    ++ [match clientAt st c with
        | Some C => default (Env.http_DefaultClient E) (Client.Client C)
        | None => Env.http_DefaultClient E
        end].
Proof.
  intros HP Hc run.
  destruct (Client_Do_run E st c path v lp P HP Hc) as (vals0 & _ & Hrun).
  cbv zeta in Hrun. subst run. rewrite Hrun. cbn [fst snd Store.log].
  rewrite requests_run, fmap_app. simpl. by destruct (clientAt st c).
Qed.

(** ** Placeholder substitution, further *)

(** X6: a template without "{" is returned as it is, whatever the
    arguments. *)
Theorem fillPlaceholders_no_brace (s : string) (args : list string) :
  lbrace ∉ Bytes.of_string s →
  fillPlaceholders s args = s.
Proof.
  intros Hs.
  destruct (fillPlaceholders_render [] (Bytes.of_string s) args) as [Hout _].
  { constructor. }
  { exists (Bytes.of_string s), []. rewrite app_nil_r.
    split_and!; [done..|apply not_elem_of_nil]. }
  rewrite render_nil, to_of_string, substitute_nil in Hout.
  by rewrite Hout, to_of_string.
Qed.

(** X7: one step of the substitution.  The text before the first "{" is
    kept, the first placeholder, up to the first "}" after it, takes the
    first argument as it is, and the rest of the template is filled with
    the rest of the arguments.  The argument is neither escaped nor scanned
    for placeholders. *)
Theorem fillPlaceholders_step (pre name rest a : string) (args : list string) :
  lbrace ∉ Bytes.of_string pre →
  rbrace ∉ Bytes.of_string name →
  fillPlaceholders (pre +:+ "{" +:+ name +:+ "}" +:+ rest) (a :: args)
  = pre +:+ a +:+ fillPlaceholders rest args.
Proof.
  intros Hpre Hhole.
  destruct (spans_spec rest) as (Hsps & Htail & Hrest).
  set (sps := (spans rest).1) in *. set (tail := (spans rest).2) in *.
  set (sp := Span (Bytes.of_string pre) (Bytes.of_string name)).
  destruct (fillPlaceholders_render (sp :: sps) tail (a :: args)) as [Hout _];
    [by constructor | done |].
  destruct (fillPlaceholders_render sps tail args) as [Hout' _]; [done..|].
  rewrite Hrest, to_of_string in Hout'.
  rewrite render_cons, Hrest, substitute_cons in Hout. simpl lit in Hout.
  simpl hole in Hout.
  assert (pre +:+ "{" +:+ name +:+ "}" +:+ rest
          = Bytes.to_string
              (Bytes.of_string pre
               ++ lbrace :: Bytes.of_string name ++ rbrace :: Bytes.of_string rest))
    as ->.
  { rewrite <- (to_of_string (pre +:+ _)). f_equal.
    by rewrite !of_string_app. }
  by rewrite Hout, Hout', !to_string_app, !to_of_string.
Qed.

(** X8: nothing is left to fill.  When there are at least as many arguments
    as placeholders and no argument holds a "{", the output holds no
    complete placeholder: filling it again, with any arguments, changes
    nothing. *)
Theorem fillPlaceholders_saturated (s : string) (args args' : list string) :
  length (spans s).1 ≤ length args →
  Forall (λ a, lbrace ∉ Bytes.of_string a) args →
  fillPlaceholders (fillPlaceholders s args) args' = fillPlaceholders s args.
Proof.
  intros Hlen Hargs.
  destruct (spans_spec s) as (Hsps & Htail & Hs).
  set (sps := (spans s).1) in *. set (tail := (spans s).2) in *.
  destruct (fillPlaceholders_render sps tail args) as [Hout _]; [done..|].
  rewrite Hs, to_of_string in Hout. rewrite Hout.
  unfold substitute. rewrite (drop_ge sps) by done. rewrite render_nil.
  set (front := concat _).
  assert (lbrace ∉ front) as Hfront.
  { subst front. clear Hout Hs Hlen. revert args Hargs.
    induction Hsps as [|sp sps [Hlit _] _ IH]; intros args Hargs;
      [apply not_elem_of_nil|].
    destruct Hargs as [|a args Ha Hargs]; [apply not_elem_of_nil|].
    simpl. rewrite !not_elem_of_app. split_and!; [done.. | by apply IH]. }
  destruct Htail as (pre & post & -> & Hpre & Hpost).
  destruct (fillPlaceholders_render [] (front ++ pre ++ post) args') as [Hre _].
  { constructor. }
  { exists (front ++ pre), post. rewrite <- app_assoc.
    split_and!; [done | | done]. by rewrite not_elem_of_app. }
  rewrite render_nil, substitute_nil in Hre. exact Hre.
Qed.

(** ** [JoinIDs], further *)

Section join_more.

Lemma concat_app_nonempty (sep : string) (l1 l2 : list string) :
  l1 ≠ [] → l2 ≠ [] →
  String.concat sep (l1 ++ l2)
  = String.concat sep l1 +:+ sep +:+ String.concat sep l2.
Proof.
  intros H1 H2. induction l1 as [|x l1 IH]; [done|].
  destruct l1 as [|y l1].
  - destruct l2; [done|]. reflexivity.
  - change (String.concat sep ((x :: y :: l1) ++ l2))
      with (x +:+ sep +:+ String.concat sep ((y :: l1) ++ l2)).
    rewrite IH by done. rewrite concat_cons_cons.
    assert (∀ s t u : string, (s +:+ t) +:+ u = s +:+ t +:+ u) as Hassoc.
    { intros s t u. induction s as [|a s IHs]; [done|].
      change ((String a s +:+ t) +:+ u) with (String a ((s +:+ t) +:+ u)).
      by rewrite IHs. }
    by rewrite !Hassoc.
Qed.

Lemma JoinIDs_concat (ids : list Z) :
  JoinIDs ids = String.concat ";" (strconv.Itoa <$> ids).
Proof.
  unfold JoinIDs. rewrite joinLoop_spec.
  destruct ids; [done|]. simpl app. apply to_of_string.
Qed.

(** A decimal numeral holds digits, after a "-" at most: no ";". *)
Lemma uint_no_semicolon (d : Decimal.uint) :
  ";"%char ∉ Bytes.of_string (NilEmpty.string_of_uint d).
Proof.
  induction d; simpl; try apply not_elem_of_nil;
    (apply not_elem_of_cons; split; [done | exact IHd]).
Qed.

Lemma Itoa_no_semicolon (i : Z) : ";"%char ∉ Bytes.of_string (strconv.Itoa i).
Proof.
  unfold strconv.Itoa.
  assert (∀ d, ";"%char ∉ Bytes.of_string (NilZero.string_of_uint d)) as Hu.
  { intros d. destruct d; try apply uint_no_semicolon.
    apply not_elem_of_cons. split; [done | apply not_elem_of_nil]. }
  destruct (Z.to_int i) as [d|d]; simpl; [apply Hu|].
  apply not_elem_of_cons. split; [done | apply Hu].
Qed.

Lemma splitOn_nosep (sep : ascii) (l cur : list ascii) :
  sep ∉ l → splitOn sep cur l = [cur ++ l].
Proof.
  revert cur. induction l as [|c l IH]; intros cur Hl; simpl.
  - by rewrite app_nil_r.
  - apply not_elem_of_cons in Hl as [Hc Hl].
    rewrite decide_False by done. rewrite IH by done. by rewrite <- app_assoc.
Qed.

Lemma splitOn_sep (sep : ascii) (l l' cur : list ascii) :
  sep ∉ l →
  splitOn sep cur (l ++ sep :: l') = (cur ++ l) :: splitOn sep [] l'.
Proof.
  revert cur. induction l as [|c l IH]; intros cur Hl; simpl.
  - rewrite decide_True by done. by rewrite app_nil_r.
  - apply not_elem_of_cons in Hl as [Hc Hl].
    rewrite decide_False by done. rewrite IH by done. by rewrite <- app_assoc.
Qed.

(** The pieces of a joined list are its numerals. *)
Lemma splitOn_concat (ss : list string) :
  ss ≠ [] → Forall (λ s, ";"%char ∉ Bytes.of_string s) ss →
  splitOn ";" [] (Bytes.of_string (String.concat ";" ss)) = Bytes.of_string <$> ss.
Proof.
  intros Hne Hss. induction Hss as [|s ss Hs Hss IH]; [done|].
  destruct ss as [|t ss].
  - simpl. by rewrite splitOn_nosep.
  - rewrite concat_cons_cons, !of_string_app.
    change (Bytes.of_string ";" ++ ?l) with (";"%char :: l).
    rewrite splitOn_sep by done. rewrite IH by done. done.
Qed.

End join_more.

(** X9: joining two lists.  For two lists that are not empty, the IDs of
    the one followed by the IDs of the other join to the two joined
    strings with a ";" between them. *)
Theorem JoinIDs_app (xs ys : list Z) :
  xs ≠ [] → ys ≠ [] →
  JoinIDs (xs ++ ys) = JoinIDs xs +:+ ";" +:+ JoinIDs ys.
Proof.
  intros Hx Hy. rewrite !JoinIDs_concat, fmap_app.
  apply concat_app_nonempty; by destruct xs, ys.
Qed.

(** X10: [JoinIDs] loses nothing.  Cutting the joined string at every ";"
    and reading each piece as a decimal numeral gives the list back; so two
    lists that join to the same string are equal. *)
Theorem SplitIDs_JoinIDs (ids : list Z) :
  SplitIDs (JoinIDs ids) = Some ids
  ∧ ∀ ids', JoinIDs ids' = JoinIDs ids → ids' = ids.
Proof.
  assert (∀ l, SplitIDs (JoinIDs l) = Some l) as Hrt.
  { intros l. unfold SplitIDs. rewrite JoinIDs_concat.
    destruct l as [|id l]; [done|].
    assert (String.concat ";" (strconv.Itoa <$> id :: l) ≠ "") as Hne.
    { intros Hempty. apply (f_equal String.length) in Hempty.
      pose proof (Itoa_nonempty id) as Hid. rewrite of_string_length in Hid.
      rewrite fmap_cons in Hempty. destruct (strconv.Itoa <$> l).
      - simpl in Hempty. lia.
      - rewrite concat_cons_cons, !string_app_length in Hempty.
        simpl in Hempty. lia. }
    rewrite bool_decide_false by done.
    assert (Forall (λ s, ";"%char ∉ Bytes.of_string s) (strconv.Itoa <$> id :: l))
      as Hsemi.
    { apply Forall_fmap, Forall_true. intros i. apply Itoa_no_semicolon. }
    rewrite splitOn_concat by done.
    apply mapM_Some. rewrite <- list_fmap_compose.
    apply Forall2_fmap_l, Forall_Forall2_diag, Forall_true.
    intros i. simpl. rewrite to_of_string. apply Atoi_Itoa. }
  split; [apply Hrt|].
  intros ids' Heq. pose proof (Hrt ids') as H'. rewrite Heq, Hrt in H'.
  by injection H'.
Qed.

(** ** The response decoder, further *)

Section decode_more.
Context {Dest Err : Type}.
Variable unmarshal : json.value → Dest → Dest * option Err.
Implicit Types (r : result.t Dest) (f g : json.field) (x : json.value)
  (ms : list (string * json.value)) (saved : option (error Err)).

(** The envelope returned holds what [result] holds. *)
Lemma wrapperValue_result f r :
  wrapperValue f
    (Wrapper.mk
       (Error.mk (result.ErrorID r) (result.ErrorName r) (result.ErrorMessage r))
       (result.Page r) (result.PageSize r) (result.HasMore r)
       (result.Backoff r) (result.QuotaMax r) (result.QuotaRemaining r)
       (result.Total r) (result.Type_ r))
  = fieldValue f r.
Proof. by destruct f. Qed.

Lemma setField_Items g x r r' :
  setField g x r = json.Put r' → result.Items r' = result.Items r.
Proof.
  intros Hset. destruct r, g; simpl in Hset; try done;
    repeat case_match; by simplify_eq.
Qed.

Lemma Items_setItems (it : Dest) r : result.Items (setItems it r) = it.
Proof. by destruct r. Qed.

(** One member, stored: the three ways on for a field other than "items". *)
Lemma decodeMembers_cons_field k x ms g r saved :
  json.lookupField k = Some g → g ≠ json.FItems →
  decodeMembers unmarshal ((k, x) :: ms) r saved
  = match setField g x r with
    | json.Put r' => decodeMembers unmarshal ms r' saved
    | json.Keep => decodeMembers unmarshal ms r saved
    | json.Mismatch =>
      decodeMembers unmarshal ms r
        (match saved with
         | Some e => Some e
         | None => Some (UnmarshalTypeError (json.kindOf x) (json.tag g))
         end)
    end.
Proof. intros Hk Hg. simpl. rewrite Hk. by destruct g. Qed.

Lemma decodeMembers_cons_items k x ms r saved :
  json.lookupField k = Some json.FItems →
  decodeMembers unmarshal ((k, x) :: ms) r saved
  = match unmarshal x (result.Items r) with
    | (it, Some e) => (setItems it r, Some (UnmarshalerError e))
    | (it, None) => decodeMembers unmarshal ms (setItems it r) saved
    end.
Proof. intros Hk. simpl. by rewrite Hk. Qed.

Lemma decodeMembers_cons_unknown k x ms r saved :
  json.lookupField k = None →
  decodeMembers unmarshal ((k, x) :: ms) r saved
  = decodeMembers unmarshal ms r saved.
Proof. intros Hk. simpl. by rewrite Hk. Qed.

(** A field that no member names keeps its value, whatever the members
    hold. *)
Lemma decodeMembers_absent f ms :
  f ∉ omap json.lookupField ms.*1 →
  ∀ r saved,
    fieldValue f (decodeMembers unmarshal ms r saved).1 = fieldValue f r.
Proof.
  induction ms as [|[k x] ms IH]; intros Hf r saved; [done|].
  simpl in Hf. destruct (json.lookupField k) as [g|] eqn:Hk.
  - apply not_elem_of_cons in Hf as [Hfg Hf].
    destruct (decide (g = json.FItems)) as [->|Hg].
    + rewrite decodeMembers_cons_items by done.
      destruct (unmarshal x (result.Items r)) as [it [e|]]; simpl.
      * apply fieldValue_setItems.
      * rewrite IH by done. apply fieldValue_setItems.
    + rewrite (decodeMembers_cons_field k x ms g) by done.
      destruct (setField g x r) as [|r'|] eqn:Hset; rewrite IH by done;
        [done | | done].
      by apply (setField_other f g x).
  - rewrite decodeMembers_cons_unknown by done. by apply IH.
Qed.

(** Without a member "items" the destination is not touched. *)
Lemma decodeMembers_no_items ms :
  itemsOf ms = [] →
  ∀ r saved, result.Items (decodeMembers unmarshal ms r saved).1 = result.Items r.
Proof.
  induction ms as [|[k x] ms IH]; intros Hno r saved; [done|].
  unfold itemsOf in Hno. simpl in Hno.
  destruct (json.lookupField k) as [g|] eqn:Hk.
  - case_bool_decide as Hg; [done|].
    rewrite (decodeMembers_cons_field k x ms g) by congruence.
    destruct (setField g x r) as [|r'|] eqn:Hset; rewrite IH by done;
      [done | | done].
    by apply (setField_Items g x).
  - rewrite bool_decide_false in Hno by done.
    rewrite decodeMembers_cons_unknown by done. by apply IH.
Qed.

(** With well-typed members, every "items" value is decoded into the
    destination, in the order of the members. *)
Lemma decodeMembers_items ms :
  wellTyped unmarshal ms →
  ∀ r saved,
    result.Items (decodeMembers unmarshal ms r saved).1
    = foldl (λ d x, (unmarshal x d).1) (result.Items r) (itemsOf ms).
Proof.
  induction 1 as [|[k x] ms Hty _ IH]; intros r saved; [done|].
  unfold itemsOf. simpl in Hty |- *. fold (itemsOf ms).
  destruct (json.lookupField k) as [g|] eqn:Hk; [|by rewrite IH].
  specialize (Hty g eq_refl).
  destruct (decide (g = json.FItems)) as [->|Hg].
  - rewrite bool_decide_true by done. simpl foldl.
    unfold items_UnmarshalJSON. simpl in Hty. specialize (Hty (result.Items r)).
    destruct (unmarshal x (result.Items r)) as [it [e|]]; [done|].
    simpl. by rewrite IH, Items_setItems.
  - rewrite bool_decide_false by congruence.
    assert (result.Items
              (match setField g x r with
               | json.Put r' => decodeMembers unmarshal ms r' saved
               | json.Keep => decodeMembers unmarshal ms r saved
               | json.Mismatch =>
                 decodeMembers unmarshal ms r
                   (match saved with
                    | Some e => Some e
                    | None => Some (UnmarshalTypeError (json.kindOf x) (json.tag g))
                    end)
               end).1
            = foldl (λ d x, (unmarshal x d).1) (result.Items r) (itemsOf ms))
      as Hgoal.
    { destruct (setField g x r) as [|r'|] eqn:Hset; rewrite IH; [done | | done].
      by rewrite (setField_Items g x r r'). }
    destruct g; try done; exact Hgoal.
Qed.


End decode_more.

(** X11: the envelope of a well-typed body.  When every member that names a
    field has a value of the type of the field, [parseResponse] returns no
    error, and every field of the envelope, paging and quota fields as well
    as the error descriptor, holds the value of the last member that names
    it with a value other than [null], or the zero value of the field when
    there is none. *)
Theorem parseResponse_fields {Body Dest Err : Type}
    (readValue : Body → Err + json.value)
    (unmarshal : json.value → Dest → Dest * option Err)
    (r : Body) (v : Dest) (ms : list (string * json.value)) :
  readValue r = inr (json.Object ms) →
  wellTyped unmarshal ms →
  ∃ (w : Wrapper.t) (v' : Dest),
    parseResponse readValue unmarshal r v = (Some w, None, v')
    ∧ ∀ f, f ≠ json.FItems →
           wrapperValue f w
           = match memberOf f ms with Some x => Some x | None => zeroValue f end.
Proof.
  intros Hr Hty. unfold parseResponse, Decode. rewrite Hr. simpl decodeValue.
  set (r0 := result.mk v 0 "" "" 0 0 false 0 0 0 0 "").
  pose proof (decodeMembers_typed unmarshal ms Hty r0 None) as Herr.
  pose proof (λ f Hf, decodeMembers_field unmarshal f ms Hf Hty r0 None) as Hval.
  destruct (decodeMembers unmarshal ms r0 None) as [res err].
  simpl in Herr, Hval. subst err. eexists _, _. split; [done|].
  intros f Hf. rewrite wrapperValue_result, Hval by done.
  destruct (memberOf f ms); [done|]. by destruct f.
Qed.

(** X12: a field the body does not name is zero.  Whatever the body holds,
    well-typed or not, even when the decoding fails, a field of the envelope
    that no member of the body names has its zero value. *)
Theorem parseResponse_absent_field {Body Dest Err : Type}
    (readValue : Body → Err + json.value)
    (unmarshal : json.value → Dest → Dest * option Err)
    (r : Body) (v : Dest) (f : json.field) :
  (∀ ms, readValue r = inr (json.Object ms) → f ∉ omap json.lookupField ms.*1) →
  ∃ w : Wrapper.t,
    (parseResponse readValue unmarshal r v).1.1 = Some w
    ∧ wrapperValue f w = zeroValue f.
Proof.
  intros Hf. unfold parseResponse, Decode.
  set (r0 := result.mk v 0 "" "" 0 0 false 0 0 0 0 "").
  assert (fieldValue f r0 = zeroValue f) as Hzero by (by destruct f).
  destruct (readValue r) as [e|x]; [eexists; split; [done | by destruct f]|].
  destruct x as [|b|i|lit|s|l|ms];
    try (eexists; split; [done | by destruct f]).
  simpl decodeValue.
  pose proof (decodeMembers_absent unmarshal f ms (Hf ms eq_refl) r0 None) as Hval.
  destruct (decodeMembers unmarshal ms r0 None) as [res err].
  simpl in Hval. eexists. split; [done|].
  by rewrite wrapperValue_result, Hval.
Qed.

(** X13: without "items" the destination stays.  A body that has no member
    "items" (under any spelling of the key that selects the field), that is
    not a JSON object, or that cannot be read, leaves the destination as it
    was: [json.Unmarshal] is not called on it. *)
Theorem parseResponse_keeps_destination {Body Dest Err : Type}
    (readValue : Body → Err + json.value)
    (unmarshal : json.value → Dest → Dest * option Err)
    (r : Body) (v : Dest) :
  (∀ ms, readValue r = inr (json.Object ms) → itemsOf ms = []) →
  (parseResponse readValue unmarshal r v).2 = v.
Proof.
  intros Hno. unfold parseResponse, Decode.
  set (r0 := result.mk v 0 "" "" 0 0 false 0 0 0 0 "").
  destruct (readValue r) as [e|x]; [done|].
  destruct x as [|b|i|lit|s|l|ms]; try done.
  simpl decodeValue.
  pose proof (decodeMembers_no_items unmarshal ms (Hno ms eq_refl) r0 None) as Hit.
  by destruct (decodeMembers unmarshal ms r0 None) as [res err].
Qed.


(** X15: items go to the destination.  For a well-typed body, the
    destination after the call is the destination before it with every
    "items" value of the body decoded into it by [json.Unmarshal], in the
    order of the members; with one member "items", it is that value decoded
    into [v]. *)
Theorem parseResponse_items {Body Dest Err : Type}
    (readValue : Body → Err + json.value)
    (unmarshal : json.value → Dest → Dest * option Err)
    (r : Body) (v : Dest) (ms : list (string * json.value)) :
  readValue r = inr (json.Object ms) →
  wellTyped unmarshal ms →
  (parseResponse readValue unmarshal r v).2
  = foldl (λ d x, (unmarshal x d).1) v (itemsOf ms).
Proof.
  intros Hr Hty. unfold parseResponse, Decode. rewrite Hr. simpl decodeValue.
  set (r0 := result.mk v 0 "" "" 0 0 false 0 0 0 0 "").
  pose proof (decodeMembers_items unmarshal ms Hty r0 None) as Hit.
  by destruct (decodeMembers unmarshal ms r0 None) as [res err].
Qed.

(** ** The shape of the query *)

Section query_shape.
Implicit Types (v : url.Values) (keys : list string) (c : ascii) (s t : string).

Lemma occurrences_app c s t :
  occurrences c (s +:+ t) = occurrences c s + occurrences c t.
Proof. unfold occurrences. by rewrite of_string_app, filter_app, length_app. Qed.

(** What [QueryEscape] writes for one byte is made of query bytes. *)
Lemma escapeByte_queryByte c : Forall (λ b, queryByte b = true) (url.escapeByte c).
Proof.
  assert (forallb queryByte (url.escapeByte c) = true) as Hall
    by (destruct c as [[] [] [] [] [] [] [] []]; vm_compute; reflexivity).
  induction (url.escapeByte c) as [|b l IH]; [constructor|].
  simpl in Hall. apply andb_prop in Hall as [Hb Hl].
  constructor; [exact Hb | by apply IH].
Qed.

Lemma QueryEscape_queryByte s :
  Forall (λ b, queryByte b = true) (Bytes.of_string (url.QueryEscape s)).
Proof.
  unfold url.QueryEscape. rewrite of_to_string.
  induction (Bytes.of_string s) as [|c l IH]; [constructor|].
  simpl. apply Forall_app. split; [apply escapeByte_queryByte | exact IH].
Qed.

(** A byte that is no query byte does not occur in an escaped string. *)
Lemma QueryEscape_occurrences c s :
  queryByte c = false → occurrences c (url.QueryEscape s) = 0.
Proof.
  intros Hc. unfold occurrences.
  pose proof (QueryEscape_queryByte s) as Hs.
  induction Hs as [|b l Hb _ IH]; [done|].
  rewrite filter_cons_False; [done|]. intros ->. congruence.
Qed.

Lemma pair_occurrences (k x : string) :
  occurrences "=" (url.QueryEscape k +:+ "=" +:+ url.QueryEscape x) = 1
  ∧ occurrences "&" (url.QueryEscape k +:+ "=" +:+ url.QueryEscape x) = 0.
Proof.
  rewrite !occurrences_app, !QueryEscape_occurrences by done. by split.
Qed.

Lemma concat_occurrences (ps : list string) :
  Forall (λ p, occurrences "=" p = 1 ∧ occurrences "&" p = 0) ps →
  occurrences "=" (String.concat "&" ps) = length ps
  ∧ occurrences "&" (String.concat "&" ps) = length ps - 1.
Proof.
  induction 1 as [|p ps [Heq Hamp] Hps [IH1 IH2]]; [done|].
  destruct ps as [|q ps]; [simpl; by rewrite Heq, Hamp|].
  rewrite concat_cons_cons, !occurrences_app, IH1, IH2, Heq, Hamp.
  simpl. split; lia.
Qed.

(** One pair for every key that has one value. *)
Lemma queryPairs_single keys v :
  Forall (λ k, ∃ x, v !! k = Some [x]) keys →
  length (queryPairs keys v) = length keys
  ∧ Forall (λ p, occurrences "=" p = 1 ∧ occurrences "&" p = 0) (queryPairs keys v).
Proof.
  induction 1 as [|k keys [x Hx] _ [IHlen IHocc]]; [by split|].
  unfold queryPairs in *. rewrite bind_cons, Hx. simpl. split; [by f_equal|].
  constructor; [apply pair_occurrences | exact IHocc].
Qed.

(** The query of a map in which every key has one value: one "=" for
    every key, and a "&" between two neighbours. *)
Lemma Encode_occurrences (ord : url.rangeOrder) v :
  map_Forall (λ _ vs, length vs = 1) v →
  occurrences "=" (url.Encode ord v) = size v
  ∧ occurrences "&" (url.Encode ord v) = size v - 1.
Proof.
  intros Hv. rewrite Encode_spec.
  destruct (queryPairs_single (url.sortKeys (elements (dom v))) v) as [Hlen Hocc].
  { apply Forall_forall. intros k Hk.
    rewrite sortKeys_perm in Hk. apply elem_of_elements, elem_of_dom in Hk as [vs Hvs].
    specialize (Hv k vs Hvs). simpl in Hv.
    destruct vs as [|x [|y vs]]; [done | by exists x | done]. }
  destruct (concat_occurrences _ Hocc) as [H1 H2].
  rewrite H1, H2, Hlen, sortKeys_perm.
  assert (length (elements (dom v)) = size v) as ->; [|done].
  by rewrite <- size_dom.
Qed.

Lemma guarded_Set_single (g : bool) v (k x : string) :
  map_Forall (λ _ vs, length vs = 1) v →
  map_Forall (λ _ vs, length vs = 1) (if g then url.Set_ v k x else v).
Proof. destruct g; [|done]. intros Hv. by apply map_Forall_insert_2. Qed.

Lemma guarded_Set_size (g : bool) v (k x : string) :
  size v ≤ size (if g then url.Set_ v k x else v)
  ∧ size (if g then url.Set_ v k x else v) ≤ S (size v).
Proof.
  destruct g; [|lia]. unfold url.Set_.
  destruct (v !! k) as [vs|] eqn:Hk.
  - rewrite map_size_insert_Some by done. lia.
  - rewrite map_size_insert_None by done. lia.
Qed.

End query_shape.

Ltac size_layers :=
  repeat match goal with
  | |- context [size (if ?g then url.Set_ ?v ?k ?x else ?v)] =>
    let m := fresh "m" in
    pose proof (guarded_Set_size g v k x);
    set (m := if g then url.Set_ v k x else v) in *; clearbody m
  | H : context [size (if ?g then url.Set_ ?v ?k ?x else ?v)] |- _ =>
    let m := fresh "m" in
    pose proof (guarded_Set_size g v k x);
    set (m := if g then url.Set_ v k x else v) in *; clearbody m
  end.

Section query_of_call.
Context {HttpClient Body : Type}.
Implicit Types (st : Store.t HttpClient Body) (P : Params.t).

(** The parameters of [values]: one value for every key, and between one
    and seven keys. *)
Lemma values_shape st (l : loc) P (vals : url.Values) :
  Store.params st !! l = Some P →
  values (Some l) st = (Ok vals, st) →
  map_Forall (λ _ vs, length vs = 1) vals ∧ 1 ≤ size vals ∧ size vals ≤ 7.
Proof.
  intros HP Hrun. unfold values, mbind, M_bind in Hrun.
  rewrite (loadParams_Some _ _ _ HP) in Hrun. injection Hrun as <-.
  split.
  - do 6 apply guarded_Set_single. by apply map_Forall_singleton.
  - size_layers.
    match goal with H : context [size {[ ?k := ?x ]}] |- _ =>
      rewrite (map_size_singleton k x) in H end.
    lia.
Qed.

End query_of_call.

(** X16: parameter values cannot extend the query.  Whatever bytes the
    fields of the parameter set and the credentials hold ("&", "=", spaces,
    anything), the query of the request has one "=" for each of its
    parameters and a "&" only between two of them; there are between one and
    nine parameters. *)
Theorem Do_query_shape {HttpClient Body Dest Err : Type}
    (E : Env.t HttpClient Body Dest Err) (st : Store.t HttpClient Body)
    (c : ptr) (path : string) (v : Dest) (lp : loc) (P : Params.t) :
  Store.params st !! lp = Some P →
  (c = None ∨ is_Some (clientAt st c)) →
  let rootF := from_option Client.Root "" (clientAt st c) in
  ∃ (client : HttpClient) (vals : url.Values),
    requests (Store.log (Client_Do E c path v (Some lp) st).2)
    = requests (Store.log st)
      ++ [(client,
           (if decide (rootF = "") then Root else rootF)
           +:+ fillPlaceholders path (Params.Args P)
           +:+ "?" +:+ url.Encode (Env.order E) vals)]
    ∧ 1 ≤ size vals ∧ size vals ≤ 9
    ∧ occurrences "=" (url.Encode (Env.order E) vals) = size vals
    ∧ occurrences "&" (url.Encode (Env.order E) vals) = size vals - 1.
Proof.
  intros HP Hc rootF.
  destruct (Client_Do_run E st c path v lp P HP Hc) as (vals0 & Hvals & Hrun).
  cbv zeta in Hrun. fold rootF in Hrun.
  destruct (values_shape st lp P vals0 HP Hvals) as (Hsingle & Hlo & Hhi).
  set (token := from_option Client.AccessToken "" (clientAt st c)) in *.
  set (key := from_option Client.Key "" (clientAt st c)) in *.
  set (vals := if decide (key = "") then _ else _) in *.
  assert (map_Forall (λ _ vs, length vs = 1) vals ∧ size vals0 ≤ size vals
          ∧ size vals ≤ S (S (size vals0))) as (Hs & Hl & Hh).
  { subst vals. split.
    - destruct (decide (key = "")), (decide (token = ""));
        repeat apply map_Forall_insert_2; done.
    - pose proof (guarded_Set_size (bool_decide (token ≠ "")) vals0
                    "access_token" token) as H1.
      destruct (decide (token = "")) as [Ht|Ht];
        [rewrite bool_decide_false in H1 by (by intros ?)
        |rewrite bool_decide_true in H1 by done].
      + destruct (decide (key = "")); [lia|].
        pose proof (guarded_Set_size true vals0 "key" key). simpl in *. lia.
      + destruct (decide (key = "")); [lia|].
        pose proof (guarded_Set_size true (url.Set_ vals0 "access_token" token)
                      "key" key). simpl in *. lia. }
  destruct (Encode_occurrences (Env.order E) vals Hs) as [Heq Hamp].
  eexists _, vals. split_and!; [| lia | lia | done | done].
  rewrite Hrun. cbn [fst snd Store.log]. apply requests_run.
Qed.

(** ** Worked examples of the further properties *)



Lemma Do_verbose_echo_witness :
  Store.params DemoWorlds.st1 !! 5 = Some Demo.params0
  ∧ (Some 7 = None ∨ is_Some (clientAt DemoWorlds.st1 (Some 7)))
  ∧ let run := Client_Do DemoWorlds.down (Some 7) PathAnswers json.Null (Some 5)
                 DemoWorlds.st1 in
    ∃ (client : Demo.HttpClient) (req : string),
      requests (Store.log run.2)
      = requests (Store.log DemoWorlds.st1) ++ [(client, req)]
      ∧ printed (Store.log run.2)
        = printed (Store.log DemoWorlds.st1)
          ++ (if Store.Verbose DemoWorlds.st1 then [req] else []).
Proof.
  assert (Store.params DemoWorlds.st1 !! 5 = Some Demo.params0) as H1 by reflexivity.
  assert (Some 7 = None ∨ is_Some (clientAt DemoWorlds.st1 (Some 7))) as H2
    by (right; eexists; reflexivity).
  split; [exact H1|]. split; [exact H2|].
  exact (Do_verbose_echo DemoWorlds.down DemoWorlds.st1 (Some 7) PathAnswers json.Null
           5 Demo.params0 H1 H2).
Defined.

Lemma Do_transport_choice_witness :
  Store.params Demo.st0 !! 0 = Some Demo.params0
  ∧ (Some 1 = None ∨ is_Some (clientAt Demo.st0 (Some 1)))
  ∧ (requests (Store.log (Client_Do DemoWorlds.down (Some 1) PathAnswers json.Null
                            (Some 0) Demo.st0).2)).*1
    = ["mine"].
Proof.
  assert (Store.params Demo.st0 !! 0 = Some Demo.params0) as H1 by reflexivity.
  assert (Some 1 = None ∨ is_Some (clientAt Demo.st0 (Some 1))) as H2
    by (right; eexists; reflexivity).
  split; [exact H1|]. split; [exact H2|].
  exact (Do_transport_choice DemoWorlds.down Demo.st0 (Some 1) PathAnswers json.Null
           0 Demo.params0 H1 H2).
Defined.

Lemma Do_query_shape_witness :
  Store.params Demo.st0 !! 0 = Some Demo.params0
  ∧ (Some 1 = None ∨ is_Some (clientAt Demo.st0 (Some 1)))
  ∧ ∃ (client : Demo.HttpClient) (vals : url.Values),
      requests (Store.log (Client_Do DemoWorlds.down (Some 1) PathAnswers json.Null
                             (Some 0) Demo.st0).2)
      = [(client,
          Root +:+ fillPlaceholders PathAnswers ["1;2;3"] +:+ "?"
          +:+ url.Encode Demo.forward vals)]
      ∧ 1 ≤ size vals ∧ size vals ≤ 9
      ∧ occurrences "=" (url.Encode Demo.forward vals) = size vals
      ∧ occurrences "&" (url.Encode Demo.forward vals) = size vals - 1.
Proof.
  assert (Store.params Demo.st0 !! 0 = Some Demo.params0) as H1 by reflexivity.
  assert (Some 1 = None ∨ is_Some (clientAt Demo.st0 (Some 1))) as H2
    by (right; eexists; reflexivity).
  split; [exact H1|]. split; [exact H2|].
  exact (Do_query_shape DemoWorlds.down Demo.st0 (Some 1) PathAnswers json.Null
           0 Demo.params0 H1 H2).
Defined.

Lemma fillPlaceholders_no_brace_witness :
  (lbrace ∉ Bytes.of_string "/answers")
  ∧ fillPlaceholders "/answers" ["1"; "2"] = "/answers".
Proof.
  assert (lbrace ∉ Bytes.of_string "/answers") as H
    by (apply IndexByte_None; reflexivity).
  split; [exact H|].
  exact (fillPlaceholders_no_brace "/answers" ["1"; "2"] H).
Defined.

Lemma fillPlaceholders_step_witness :
  (lbrace ∉ Bytes.of_string "/questions/")
  ∧ (rbrace ∉ Bytes.of_string "ids")
  ∧ fillPlaceholders ("/questions/" +:+ "{" +:+ "ids" +:+ "}" +:+ "/answers/{n}")
      ["{1}"; "2"]
    = "/questions/" +:+ "{1}" +:+ fillPlaceholders "/answers/{n}" ["2"].
Proof.
  assert (lbrace ∉ Bytes.of_string "/questions/") as H1
    by (apply IndexByte_None; reflexivity).
  assert (rbrace ∉ Bytes.of_string "ids") as H2
    by (apply IndexByte_None; reflexivity).
  split; [exact H1|]. split; [exact H2|].
  exact (fillPlaceholders_step "/questions/" "ids" "/answers/{n}" "{1}" ["2"] H1 H2).
Defined.

Lemma fillPlaceholders_saturated_witness :
  length (spans "/questions/{ids}/answers").1 ≤ length ["1;2;3"; "4"]
  ∧ Forall (λ a, lbrace ∉ Bytes.of_string a) ["1;2;3"; "4"]
  ∧ fillPlaceholders (fillPlaceholders "/questions/{ids}/answers" ["1;2;3"; "4"]) ["9"]
    = fillPlaceholders "/questions/{ids}/answers" ["1;2;3"; "4"].
Proof.
  assert (length (spans "/questions/{ids}/answers").1 ≤ length ["1;2;3"; "4"]) as H1
    by (vm_compute; lia).
  assert (Forall (λ a, lbrace ∉ Bytes.of_string a) ["1;2;3"; "4"]) as H2
    by (repeat constructor; apply IndexByte_None; reflexivity).
  split; [exact H1|]. split; [exact H2|].
  exact (fillPlaceholders_saturated "/questions/{ids}/answers" ["1;2;3"; "4"] ["9"]
           H1 H2).
Defined.

Lemma JoinIDs_app_witness :
  [1; 2]%Z ≠ [] ∧ [3]%Z ≠ []
  ∧ JoinIDs ([1; 2] ++ [3])%Z = JoinIDs [1; 2]%Z +:+ ";" +:+ JoinIDs [3]%Z.
Proof.
  assert ([1; 2]%Z ≠ []) as H1 by done.
  assert ([3]%Z ≠ []) as H2 by done.
  split; [exact H1|]. split; [exact H2|].
  exact (JoinIDs_app [1; 2]%Z [3]%Z H1 H2).
Defined.

Lemma parseResponse_fields_witness :
  Demo.readValue (inr (json.Object Demo.badParameter))
  = inr (json.Object Demo.badParameter)
  ∧ wellTyped Demo.unmarshal Demo.badParameter
  ∧ ∃ (w : Wrapper.t) (v' : Demo.Dest),
      parseResponse Demo.readValue Demo.unmarshal
        (inr (json.Object Demo.badParameter)) json.Null
      = (Some w, None, v')
      ∧ ∀ f, f ≠ json.FItems →
             wrapperValue f w
             = match memberOf f Demo.badParameter with
               | Some x => Some x
               | None => zeroValue f
               end.
Proof.
  assert (Demo.readValue (inr (json.Object Demo.badParameter))
          = inr (json.Object Demo.badParameter)) as H1 by reflexivity.
  assert (wellTyped Demo.unmarshal Demo.badParameter) as H2.
  { repeat constructor; simpl; intros f [= <-]; simpl; right; eexists;
      (reflexivity || (split; reflexivity)). }
  split; [exact H1|]. split; [exact H2|].
  exact (parseResponse_fields Demo.readValue Demo.unmarshal
           (inr (json.Object Demo.badParameter)) json.Null Demo.badParameter H1 H2).
Defined.

Lemma parseResponse_absent_field_witness :
  (∀ ms, Demo.readValue (inr (json.Object Demo.mistyped)) = inr (json.Object ms) →
         json.FBackoff ∉ omap json.lookupField ms.*1)
  ∧ ∃ w : Wrapper.t,
      (parseResponse Demo.readValue Demo.unmarshal
         (inr (json.Object Demo.mistyped)) json.Null).1.1 = Some w
      ∧ wrapperValue json.FBackoff w = zeroValue json.FBackoff.
Proof.
  assert (∀ ms, Demo.readValue (inr (json.Object Demo.mistyped)) = inr (json.Object ms) →
                json.FBackoff ∉ omap json.lookupField ms.*1) as H.
  { intros ms [= <-]. vm_compute. intros Hin.
    repeat (apply elem_of_cons in Hin as [Hin|Hin]; [discriminate|]).
    by apply elem_of_nil in Hin. }
  split; [exact H|].
  exact (parseResponse_absent_field Demo.readValue Demo.unmarshal
           (inr (json.Object Demo.mistyped)) json.Null json.FBackoff H).
Defined.

Lemma parseResponse_keeps_destination_witness :
  (∀ ms, Demo.readValue (inr (json.Object Demo.mistyped)) = inr (json.Object ms) →
         itemsOf ms = [])
  ∧ (parseResponse Demo.readValue Demo.unmarshal
       (inr (json.Object Demo.mistyped)) (json.Num 5)).2 = json.Num 5.
Proof.
  assert (∀ ms, Demo.readValue (inr (json.Object Demo.mistyped)) = inr (json.Object ms) →
                itemsOf ms = []) as H
    by (intros ms [= <-]; reflexivity).
  split; [exact H|].
  exact (parseResponse_keeps_destination Demo.readValue Demo.unmarshal
           (inr (json.Object Demo.mistyped)) (json.Num 5) H).
Defined.


Lemma parseResponse_items_witness :
  Demo.readValue (inr (json.Object [("items", json.Num 4); ("page", json.Num 2)]))
  = inr (json.Object [("items", json.Num 4); ("page", json.Num 2)])
  ∧ wellTyped DemoInt.unmarshal [("items", json.Num 4); ("page", json.Num 2)]
  ∧ (parseResponse Demo.readValue DemoInt.unmarshal
       (inr (json.Object [("items", json.Num 4); ("page", json.Num 2)])) 7%Z).2
    = 4%Z.
Proof.
  assert (Demo.readValue (inr (json.Object [("items", json.Num 4); ("page", json.Num 2)]))
          = inr (json.Object [("items", json.Num 4); ("page", json.Num 2)])) as H1
    by reflexivity.
  assert (wellTyped DemoInt.unmarshal [("items", json.Num 4); ("page", json.Num 2)])
    as H2.
  { repeat constructor; simpl; intros f [= <-]; simpl.
    - intros d. reflexivity.
    - right. eexists. split; reflexivity. }
  split; [exact H1|]. split; [exact H2|].
  exact (parseResponse_items Demo.readValue DemoInt.unmarshal
           (inr (json.Object [("items", json.Num 4); ("page", json.Num 2)])) 7%Z
           [("items", json.Num 4); ("page", json.Num 2)] H1 H2).
Defined.
